(** * minidaw: the Timeline / Instrument / Wavetable rendering pipeline

    A shallow embedding of [audio_composition.py].

    Modelling conventions.
    - Python numbers (ints and floats used as times, velocities and samples)
      are exact rationals [Q]; [int(x)] is truncation toward zero.
    - A numpy buffer is a heap cell holding a list of samples; an [ndarray]
      value is a view (base cell, offset, length) onto such a cell, so that
      the cached buffer, the buffer returned by the generator and slices of
      fresh arrays alias exactly as in the source.  Buffers are 1-D (mono).
    - A Python exception is a [Raise] outcome; the state reached when the
      exception leaves the method is returned next to it.
    - [trace] is ghost state: it logs generator invocations, track
      resolutions and [play_note] calls, the way a call-counting stub would.
    - Each Track owns its Instrument and each Instrument its Wavetable;
      one Instrument object shared by several tracks is not modelled. *)

From Stdlib Require Import QArith Qabs Qround ZArith Sorted Lqa.
From stdpp Require Import gmap strings list fin_maps sorting.
From Equations Require Import Equations.

(** ** Python numbers *)

(** [int(x)] on a number: truncation toward zero. *)
Definition py_int (q : Q) : Z := Z.quot (Qnum q) (Z.pos (Qden q)).

(** [x < y] *)
Definition Qltb (x y : Q) : bool :=
  match (x ?= y)%Q with Lt => true | _ => false end.

(** ** Exceptions and outcomes *)

Inductive Exn :=
| KeyError (k : Z)                      (* self.tracks[note.track_id] *)
| TypeError_NoneType                    (* None * velocity *)
| ValueError_empty_max                  (* max([]) *)
| ValueError_negative_dimensions        (* np.zeros(n), n < 0 *)
| ValueError_broadcast (k n : nat)      (* shapes (k,) (n,) do not broadcast *)
| Warning_collision (track_id : Z).     (* raise Warning(...) *)

Inductive result (A : Type) :=
| Ok (a : A)
| Raise (e : Exn).
Arguments Ok {A} a.
Arguments Raise {A} e.

(** ** Pitches: [Union[int, str]] *)

Inductive Pitch :=
| PInt (n : Z)
| PStr (s : string).

#[global] Instance Pitch_eq_dec : EqDecision Pitch.
Proof. solve_decision. Defined.

#[global] Instance Pitch_countable : Countable Pitch.
Proof.
  refine (inj_countable'
            (λ p, match p with PInt n => inl n | PStr s => inr s end)
            (λ x, match x with inl n => PInt n | inr s => PStr s end) _).
  by intros [].
Defined.

(** ** Notes *)

Module Note.
Record t := mk {
  track_id : Z;
  note : Pitch;
  start_time : Q;
  duration : Q;
  velocity : Q;
  time_wise : bool;
  is_on : bool
}.
End Note.

(** ** numpy buffers *)

Abbreviation loc := nat (only parsing).

Record ndarray := NdArray {
  arr_base : loc;     (* the buffer object the view looks into *)
  arr_off : nat;      (* first sample of the view inside the buffer *)
  arr_len : nat       (* shape (arr_len,) *)
}.

Inductive PyVal :=
| PyNone
| PyArr (a : ndarray).

Inductive Event :=
| EvGenerate (k : Pitch)        (* sound_generator.get_sound called for key k *)
| EvResolve (n : Note.t)        (* self.tracks[n.track_id] evaluated *)
| EvPlay (n : Note.t).          (* instrument.play_note(n) entered *)

Record World := mkWorld {
  heap : list (list Q);
  trace : list Event
}.

Definition set_heap (h : list (list Q)) (w : World) : World :=
  mkWorld h (trace w).

Definition emit (ev : Event) (w : World) : World :=
  mkWorld (heap w) (trace w ++ [ev]).

(** The samples seen through a view. *)
Definition np_read (h : list (list Q)) (a : ndarray) : list Q :=
  take (arr_len a) (drop (arr_off a) (default [] (h !! arr_base a))).

(** A fresh buffer object. *)
Definition np_alloc (buf : list Q) (h : list (list Q)) : ndarray * list (list Q) :=
  (NdArray (length h) 0 (length buf), h ++ [buf]).

(** [np.zeros(n)] *)
Definition np_zeros (n : Z) (h : list (list Q)) : result ndarray * list (list Q) :=
  if (n <? 0)%Z then (Raise ValueError_negative_dimensions, h)
  else let '(a, h') := np_alloc (replicate (Z.to_nat n) 0%Q) h in (Ok a, h').

(** [a * v] for a scalar [v]: a new array. *)
Definition np_mul (a : ndarray) (v : Q) (h : list (list Q)) : ndarray * list (list Q) :=
  np_alloc (map (λ x, x * v)%Q (np_read h a)) h.

(** One bound of [a[start:stop]] brought into [0, len], as [slice.indices]
    does for step 1: negative bounds count from the end. *)
Definition slice_index (i : Z) (len : nat) : nat :=
  if (i <? 0)%Z then Z.to_nat (Z.max 0 (i + Z.of_nat len))
  else Z.to_nat (Z.min i (Z.of_nat len)).

(** [a[start:stop]]: a view, no copy. *)
Definition np_slice (a : ndarray) (start stop : Z) : ndarray :=
  let lo := slice_index start (arr_len a) in
  let hi := slice_index stop (arr_len a) in
  NdArray (arr_base a) (arr_off a + lo) (hi - lo).

(** Store [vals] through the view [dst]. *)
Definition np_write (dst : ndarray) (vals : list Q) (h : list (list Q)) : list (list Q) :=
  alter (λ buf, take (arr_off dst) buf ++ vals ++ drop (arr_off dst + arr_len dst) buf)
        (arr_base dst) h.

(** [dst += src] for 1-D operands: [src] must have the shape of [dst] or
    shape (1,); anything else does not broadcast. *)
Definition np_iadd (dst src : ndarray) (h : list (list Q)) : result unit * list (list Q) :=
  let k := arr_len dst in
  let n := arr_len src in
  let s := np_read h src in
  if decide (n = k) then
    (Ok tt, np_write dst (zip_with Qplus (np_read h dst) s) h)
  else if decide (n = 1) then
    (Ok tt, np_write dst (map (λ x, x + default 0 (s !! 0%nat))%Q (np_read h dst)) h)
  else (Raise (ValueError_broadcast k n), h).

(** ** Sound generators *)

Inductive SoundGenerator :=
| AudioSample (data : ndarray) (sr : Z)
| AudioSynthesizer.

(** [AudioSample.get_sound] returns [self.data] whatever its argument is;
    [AudioSynthesizer] inherits the base method, whose body is [pass]. *)
Definition SoundGenerator_get_sound (g : SoundGenerator) (sr : option Z) : PyVal :=
  match g with
  | AudioSample data self_sr =>
      let sr := match sr with None => self_sr | Some sr => sr end in
      PyArr data
  | AudioSynthesizer => PyNone
  end.

(** ** Wavetable *)

Module Wavetable.
Record t := mk {
  sound_generator : SoundGenerator;
  sr : Z;
  wavetable : gmap Pitch PyVal
}.

Definition init (generator : SoundGenerator) (sr : Z) : t := mk generator sr ∅.

Definition get_sound (self : t) (k : Pitch) (w : World) : PyVal * World :=
  (SoundGenerator_get_sound (sound_generator self) (Some (sr self)),
   emit (EvGenerate k) w).

Definition __getitem__ (self : t) (k : Pitch) (w : World) : PyVal * t * World :=
  match wavetable self !! k with
  | None =>
      let '(v, w1) := get_sound self k w in
      (v, mk (sound_generator self) (sr self) (<[k := v]> (wavetable self)), w1)
  | Some v => (v, self, w)
  end.
End Wavetable.

(** ** Instrument *)

Module Instrument.
Record t := mk { wavetable : Wavetable.t }.

Definition play_note (self : t) (n : Note.t) (w : World) : result ndarray * t * World :=
  let w := emit (EvPlay n) w in
  let '(v, wt, w1) := Wavetable.__getitem__ (wavetable self) (Note.note n) w in
  match v with
  | PyNone => (Raise TypeError_NoneType, mk wt, w1)
  | PyArr cached =>
      let '(sound, h) := np_mul cached (Note.velocity n) (heap w1) in
      let sr := Wavetable.sr wt in
      let sound :=
        if Note.time_wise n
        then np_slice sound 0 (py_int (Note.duration n * inject_Z sr))
        else sound in
      (Ok sound, mk wt, set_heap h w1)
  end.
End Instrument.

(** ** Track *)

Module Track.
Record t := mk { id : Z; instrument : Instrument.t }.
End Track.

(** ** bisect and sorting *)

(** The loop of [bisect.bisect_right] on the keys of the list:
    [while lo < hi: mid = (lo + hi) // 2; if x < a[mid]: hi = mid else: lo = mid + 1].
    The [None] case ([a[mid]] out of range) is never met from
    [bisect_right], which starts with [hi = len(a)]. *)
Equations? bisect_loop (a : list Q) (x : Q) (lo hi : nat) : nat by wf (hi - lo) lt :=
  bisect_loop a x lo hi with decide (lo < hi) := {
    | left _ with a !! ((lo + hi) `div` 2) := {
        | Some y =>
            if Qltb x y
            then bisect_loop a x lo ((lo + hi) `div` 2)
            else bisect_loop a x ((lo + hi) `div` 2 + 1) hi
        | None => lo }
    | right _ => lo }.
Proof.
  all: change (fst (Nat.divmod (lo + hi) 1 0 1)) with ((lo + hi) `div` 2);
    pose proof (Nat.div_mod_eq (lo + hi) 2);
    pose proof (Nat.mod_upper_bound (lo + hi) 2); lia.
Qed.

Definition bisect_right (a : list Note.t) (x : Q) : nat :=
  bisect_loop (map Note.start_time a) x 0 (length a).

(** [bisect.insort(a, x, key=lambda x: x.start_time)] *)
Definition insort (a : list Note.t) (x : Note.t) : list Note.t :=
  let lo := bisect_right a (Note.start_time x) in
  take lo a ++ x :: drop lo a.

(** [list.sort(key=lambda x: x.start_time)] is a stable sort; it is given
    here as the stable insertion sort. *)
Fixpoint insert_by_start (x : Note.t) (l : list Note.t) : list Note.t :=
  match l with
  | [] => [x]
  | y :: l' =>
      if Qltb (Note.start_time x) (Note.start_time y)
      then x :: y :: l'
      else y :: insert_by_start x l'
  end.

Definition list_sort_by_start (l : list Note.t) : list Note.t :=
  foldl (λ acc x, insert_by_start x acc) [] l.

(** [max(xs)]: the first maximal element; [ValueError] on an empty list. *)
Definition py_max (xs : list Q) : result Q :=
  match xs with
  | [] => Raise ValueError_empty_max
  | x :: xs => Ok (foldl (λ m y, if Qltb m y then y else m) x xs)
  end.

(** ** Timeline *)

Module Timeline.
Record t := mk {
  tracks : gmap Z Track.t;
  notes : list Note.t;
  keep_sorted : bool;
  sr : Z;
  bpm : Z
}.

Definition set_tracks (trs : gmap Z Track.t) (self : t) : t :=
  mk trs (notes self) (keep_sorted self) (sr self) (bpm self).

Definition set_notes (ns : list Note.t) (self : t) : t :=
  mk (tracks self) ns (keep_sorted self) (sr self) (bpm self).

(** [for track in tracks: if track.id in self.tracks: raise Warning(...);
    self.tracks[track.id] = track] *)
Fixpoint populate_tracks (self : t) (trs : list Track.t) : result unit * t :=
  match trs with
  | [] => (Ok tt, self)
  | track :: rest =>
      if decide (Track.id track ∈ dom (tracks self))
      then (Raise (Warning_collision (Track.id track)), self)
      else populate_tracks (set_tracks (<[Track.id track := track]> (tracks self)) self) rest
  end.

(** [while t_id in self.tracks: t_id += 1] *)
Equations? free_id (trs : gmap Z Track.t) (t_id : Z) : Z
  by wf (size (filter (λ k, t_id ≤ k)%Z (dom trs))) lt :=
  free_id trs t_id with decide (t_id ∈ dom trs) := {
    | left _ => free_id trs (t_id + 1)
    | right _ => t_id }.
Proof.
  apply subset_size. apply strict_spec_alt. split.
  - intros k. rewrite !elem_of_filter. intros [? ?]. split; [lia | done].
  - intros Heq. assert (Hin : t_id ∈ filter (λ k, (t_id ≤ k)%Z) (dom trs)).
    { apply elem_of_filter. split; [lia | done]. }
    rewrite <- Heq in Hin. apply elem_of_filter in Hin. lia.
Qed.

Definition add_track (self : t) (instrument : Instrument.t + SoundGenerator)
    (name : option string) : Z * t :=
  let t_id := free_id (tracks self) (Z.of_nat (size (tracks self))) in
  let instrument :=
    match instrument with
    | inl i => i
    | inr g => Instrument.mk (Wavetable.init g 44100)
    end in
  let new_track := Track.mk t_id instrument in
  (t_id, set_tracks (<[Track.id new_track := new_track]> (tracks self)) self).

Definition populate_notes (self : t) (ns : list Note.t) : t :=
  if keep_sorted self
  then set_notes (foldl insort (notes self) ns) self
  else set_notes (notes self ++ ns) self.

Definition add_note (self : t) (n : Note.t) : t :=
  if keep_sorted self
  then set_notes (insort (notes self) n) self
  else set_notes (notes self ++ [n]) self.

Definition sort_notes (self : t) : t :=
  set_notes (list_sort_by_start (notes self)) self.

(** [Timeline(tracks, notes, keep_sorted, sr, bpm)] *)
Definition init (trs : list Track.t) (ns : list Note.t) (keep_sorted : bool)
    (sr bpm : Z) : result t :=
  let self := mk ∅ [] keep_sorted sr bpm in
  match populate_tracks self trs with
  | (Raise e, _) => Raise e
  | (Ok _, self) => Ok (populate_notes self ns)
  end.

(** The body of [for note in self.notes] in [generate_audio]. *)
Fixpoint for_notes (sr : Z) (start_time end_time : Q) (audio_data : ndarray)
    (ns : list Note.t) (trs : gmap Z Track.t) (w : World)
    : result unit * gmap Z Track.t * World :=
  match ns with
  | [] => (Ok tt, trs, w)
  | n :: rest =>
      if Qle_bool (Note.start_time n + Note.duration n) start_time
      then for_notes sr start_time end_time audio_data rest trs w     (* continue *)
      else if Qle_bool end_time (Note.start_time n)
      then (Ok tt, trs, w)                                            (* break *)
      else
        let w := emit (EvResolve n) w in
        match trs !! Note.track_id n with
        | None => (Raise (KeyError (Note.track_id n)), trs, w)
        | Some track =>
            let '(r, inst, w1) := Instrument.play_note (Track.instrument track) n w in
            let trs1 := <[Note.track_id n := Track.mk (Track.id track) inst]> trs in
            match r with
            | Raise e => (Raise e, trs1, w1)
            | Ok sound =>
                let start_idx :=
                  py_int ((Note.start_time n - start_time) * inject_Z sr) in
                let end_idx := (start_idx + Z.of_nat (arr_len sound))%Z in
                match np_iadd (np_slice audio_data start_idx end_idx) sound (heap w1) with
                | (Raise e, h) => (Raise e, trs1, set_heap h w1)
                | (Ok _, h) =>
                    for_notes sr start_time end_time audio_data rest trs1 (set_heap h w1)
                end
            end
        end
  end.

(** [if end_time is None: end_time = max([note.start_time + note.duration ...])] *)
Definition window_end (self : t) (end_time : option Q) : result Q :=
  match end_time with
  | None => py_max (map (λ n, Note.start_time n + Note.duration n)%Q (notes self))
  | Some e => Ok e
  end.

Definition generate_audio (self : t) (start_time : Q) (end_time : option Q)
    (w : World) : result ndarray * t * World :=
  let self := if negb (keep_sorted self) then sort_notes self else self in
  match window_end self end_time with
  | Raise e => (Raise e, self, w)
  | Ok end_time =>
      match np_zeros (py_int ((end_time - start_time) * inject_Z (sr self))) (heap w) with
      | (Raise e, _) => (Raise e, self, w)
      | (Ok audio_data, h) =>
          let '(r, trs, w') :=
            for_notes (sr self) start_time end_time audio_data
                      (notes self) (tracks self) (set_heap h w) in
          (match r with Ok _ => Ok audio_data | Raise e => Raise e end,
           set_tracks trs self, w')
      end
  end.
End Timeline.

(** * Observations used in the statements *)

(** ** Wavetable lookups *)

(** What a lookup of [k] returns in the current state of the cache. *)
Definition wt_resolve (self : Wavetable.t) (k : Pitch) : PyVal :=
  match Wavetable.wavetable self !! k with
  | Some v => v
  | None => SoundGenerator_get_sound (Wavetable.sound_generator self)
                                     (Some (Wavetable.sr self))
  end.

(** A sequence of lookups [self[k1]; self[k2]; ...] and the values returned. *)
Fixpoint lookups (self : Wavetable.t) (ks : list Pitch) (w : World)
    : list PyVal * Wavetable.t * World :=
  match ks with
  | [] => ([], self, w)
  | k :: ks =>
      let '(v, self1, w1) := Wavetable.__getitem__ self k w in
      let '(vs, self2, w2) := lookups self1 ks w1 in
      (v :: vs, self2, w2)
  end.

(** The notes whose track was resolved or that were handed to [play_note]. *)
Definition visited (tr : list Event) (n : Note.t) : Prop :=
  EvResolve n ∈ tr ∨ EvPlay n ∈ tr.

(** ** Buffers that exist *)

(** No dangling reference: every buffer a value refers to is one of the
    first [N] cells of the heap. *)
Definition allocated (N : nat) (v : PyVal) : Prop :=
  match v with
  | PyNone => True
  | PyArr a => arr_base a < N
  end.

Definition wavetable_allocated (N : nat) (wt : Wavetable.t) : Prop :=
  allocated N (SoundGenerator_get_sound (Wavetable.sound_generator wt)
                                        (Some (Wavetable.sr wt))) ∧
  map_Forall (λ _ v, allocated N v) (Wavetable.wavetable wt).

Definition tracks_allocated (N : nat) (trs : gmap Z Track.t) : Prop :=
  map_Forall (λ _ track,
    wavetable_allocated N (Instrument.wavetable (Track.instrument track))) trs.

(** ** Contents of rendered buffers *)

(** The samples [play_note] returns for a cached buffer holding [base]:
    each sample times the velocity, cut at [int(duration * sr)] when the
    note is [time_wise]. *)
Definition scaled_and_trimmed (n : Note.t) (sr : Z) (base : list Q) : list Q :=
  let s := map (λ x, x * Note.velocity n)%Q base in
  if Note.time_wise n
  then take (slice_index (py_int (Note.duration n * inject_Z sr)) (length s)) s
  else s.

Definition rendered (h : list (list Q)) (wt : Wavetable.t) (n : Note.t)
    : result (list Q) :=
  match wt_resolve wt (Note.note n) with
  | PyNone => Raise TypeError_NoneType
  | PyArr c => Ok (scaled_and_trimmed n (Wavetable.sr wt) (np_read h c))
  end.

(** The samples of [out] after [out[start:stop] += s]. *)
Definition accumulate (out : list Q) (start stop : Z) (s : list Q)
    : result (list Q) :=
  let lo := slice_index start (length out) in
  let hi := slice_index stop (length out) in
  let k := hi - lo in
  if decide (length s = k) then
    Ok (take lo out ++ zip_with Qplus (take k (drop lo out)) s ++ drop (lo + k) out)
  else if decide (length s = 1) then
    Ok (take lo out
        ++ map (λ x, x + default 0 (s !! 0%nat))%Q (take k (drop lo out))
        ++ drop (lo + k) out)
  else Raise (ValueError_broadcast k (length s)).

(** The samples of the output buffer after the loop of [generate_audio],
    as a function of the samples the wavetables resolve to. *)
Fixpoint mix (h : list (list Q)) (sr : Z) (start_time end_time : Q)
    (ns : list Note.t) (trs : gmap Z Track.t) (out : list Q) : result (list Q) :=
  match ns with
  | [] => Ok out
  | n :: rest =>
      if Qle_bool (Note.start_time n + Note.duration n) start_time
      then mix h sr start_time end_time rest trs out
      else if Qle_bool end_time (Note.start_time n)
      then Ok out
      else
        match trs !! Note.track_id n with
        | None => Raise (KeyError (Note.track_id n))
        | Some track =>
            match rendered h (Instrument.wavetable (Track.instrument track)) n with
            | Raise e => Raise e
            | Ok s =>
                let start_idx :=
                  py_int ((Note.start_time n - start_time) * inject_Z sr) in
                match accumulate out start_idx (start_idx + Z.of_nat (length s)) s with
                | Raise e => Raise e
                | Ok out' => mix h sr start_time end_time rest trs out'
                end
            end
        end
  end.

(** What the caller of [generate_audio] observes: the samples of the
    returned buffer, or the exception. *)
Definition output (r : result ndarray) (w : World) : result (list Q) :=
  match r with
  | Ok a => Ok (np_read (heap w) a)
  | Raise e => Raise e
  end.

(** [snd] added into [out] at positions [off, off + len(snd)). *)
Definition added_at (off : nat) (snd out : list Q) : list Q :=
  take off out
  ++ zip_with Qplus (take (length snd) (drop off out)) snd
  ++ drop (off + length snd) out.

(** ** Orders and the wording of the specification *)

Definition start_le (m n : Note.t) : Prop :=
  (Note.start_time m <= Note.start_time n)%Q.

(** The specification's wording for [add_track]: the smallest non-negative
    integer that is not a track id. *)
Definition smallest_unused_nonneg (trs : gmap Z Track.t) (i : Z) : Prop :=
  (0 ≤ i)%Z ∧ (i ∉ dom trs) ∧ ∀ j, (0 ≤ j)%Z → j ∉ dom trs → (i ≤ j)%Z.

(** The specification's wording for sample counts: [round(x)], an integer
    nearest to [x] (whatever the rule for ties). *)
Definition nearest_integer (x : Q) (z : Z) : Prop :=
  (Qabs (x - inject_Z z) <= 1 # 2)%Q.

(** ** Timelines that render alike *)

(** Two wavetables that answer every lookup alike, at the same rate. *)
Definition wavetable_equiv (wt wt' : Wavetable.t) : Prop :=
  Wavetable.sr wt = Wavetable.sr wt' ∧ ∀ k, wt_resolve wt k = wt_resolve wt' k.

Definition tracks_equiv (trs trs' : gmap Z Track.t) : Prop :=
  ∀ id,
    option_Forall2
      (λ t t', wavetable_equiv (Instrument.wavetable (Track.instrument t))
                               (Instrument.wavetable (Track.instrument t')))
      (trs !! id) (trs' !! id).

(** The Timeline after [if not self.keep_sorted: self.sort_notes()]. *)
Definition after_sort (self : Timeline.t) : Timeline.t :=
  if negb (Timeline.keep_sorted self) then Timeline.sort_notes self else self.

(** The samples [generate_audio] returns (or the exception it raises), as
    a function of the buffers in the heap and the state of the Timeline. *)
Definition render (h : list (list Q)) (self : Timeline.t) (start_time : Q)
    (end_time : option Q) : result (list Q) :=
  let self := after_sort self in
  match Timeline.window_end self end_time with
  | Raise e => Raise e
  | Ok end_time =>
      let len := py_int ((end_time - start_time) * inject_Z (Timeline.sr self)) in
      if (len <? 0)%Z then Raise ValueError_negative_dimensions
      else mix h (Timeline.sr self) start_time end_time (Timeline.notes self)
               (Timeline.tracks self) (replicate (Z.to_nat len) 0%Q)
  end.

(** * Example inputs *)

(** One sample buffer of eight samples of value 1, at rate 4. *)
Definition ex_world : World := mkWorld [replicate 8 1%Q] [].
Definition ex_kick : SoundGenerator := AudioSample (NdArray 0 0 8) 4.
Definition ex_instrument : Instrument.t := Instrument.mk (Wavetable.init ex_kick 4).
Definition ex_track (id : Z) : Track.t := Track.mk id ex_instrument.

(** [Note(0, 'kick', start, duration, velocity, time_wise)] *)
Definition ex_note (start duration velocity : Q) (time_wise : bool) : Note.t :=
  Note.mk 0 (PStr "kick") start duration velocity time_wise true.

(** [Timeline(tracks=[Track(5, ...)])]: the only track id in use is 5. *)
Definition ex_timeline_5 : Timeline.t :=
  Timeline.mk (<[5%Z := ex_track 5]> ∅) [] true 4 120.

(** [Timeline(tracks=[Track(0, ...)])] *)
Definition ex_timeline_0 : Timeline.t :=
  Timeline.mk (<[0%Z := ex_track 0]> ∅) [] true 4 120.

(** [Timeline(tracks=[Track(0, ...)], notes=[Note(0, 'kick', 0, 1, 1)], sr=4)]:
    one untrimmed note of one second, on a sample that lasts two seconds. *)
Definition ex_timeline_overrun : Timeline.t :=
  Timeline.mk (<[0%Z := ex_track 0]> ∅) [ex_note 0 1 1 false] true 4 120.

(** Three sorted notes: one inside the window [0, 1], one starting at its
    end, and a later one on a track that does not exist. *)
Definition ex_timeline_late : Timeline.t :=
  Timeline.mk (<[0%Z := ex_track 0]> ∅)
    [ex_note 0 (1 # 4) 1 true; ex_note 1 (1 # 4) 1 true;
     Note.mk 7 (PInt 60) 2 (1 # 4) 1 true true]
    true 4 120.

(** One trimmed note of one sample starting at 7/16 s, rate 4. *)
Definition ex_timeline_frac : Timeline.t :=
  Timeline.mk (<[0%Z := ex_track 0]> ∅) [ex_note (7 # 16) (1 # 4) 1 true] true 4 120.

(** Two trimmed notes given out of order, sorted at render time. *)
Definition ex_timeline_unsorted : Timeline.t :=
  Timeline.mk (<[0%Z := ex_track 0]> ∅)
    [ex_note (1 # 2) (1 # 4) (1 # 2) true; ex_note 0 (1 # 4) 1 true] false 4 120.

(** * Callers of the pipeline *)

(** [Timeline.from_generators(sound_generators)]: [c = cls()], then
    [c.add_track(gen)] for each element in order. *)
Definition Timeline_from_generators
    (sound_generators : list (Instrument.t + SoundGenerator)) : result Timeline.t :=
  match Timeline.init [] [] true 44100 120 with
  | Raise e => Raise e
  | Ok c => Ok (foldl (λ c gen, snd (Timeline.add_track c gen None)) c sound_generators)
  end.

(** The script [drum_pattern.py].  The four samples come from WAV files:
    here each is the buffer and the rate [AudioSample.from_file] got. *)
Definition drum_tracks (kick clap snare hihat : ndarray * Z) : list Track.t :=
  imap (λ i x, Track.mk (Z.of_nat i)
                 (Instrument.mk (Wavetable.init (AudioSample (fst x) (snd x)) 44100)))
       [kick; clap; snare; hihat].

Definition drum_notes : list Note.t :=
  [Note.mk 0 (PStr "kick") 0 (1 # 2) 1 true true;
   Note.mk 0 (PStr "kick") (1 # 4) (1 # 2) 1 true true;
   Note.mk 1 (PStr "clap") (1 # 2) (1 # 2) 1 true true;
   Note.mk 0 (PStr "kick") (3 # 4) (1 # 2) 1 true true;
   Note.mk 3 (PStr "hihat") 1 (1 # 2) 1 true true;
   Note.mk 0 (PStr "kick") (3 # 2) (1 # 2) 1 true true;
   Note.mk 2 (PStr "snare") 2 (1 # 2) 1 true true;
   Note.mk 3 (PStr "hihat") (5 # 2) (1 # 2) 1 true true].

Definition drum_pattern (kick clap snare hihat : ndarray * Z) (w : World)
    : result (ndarray * Timeline.t) * World :=
  match Timeline.init (drum_tracks kick clap snare hihat) [] true 44100 120 with
  | Raise e => (Raise e, w)
  | Ok timeline =>
      let timeline := Timeline.populate_notes timeline drum_notes in
      let '(audio_buffer, timeline, w') := Timeline.generate_audio timeline 0 None w in
      (match audio_buffer with
       | Ok a => Ok (a, timeline)
       | Raise e => Raise e
       end, w')
  end.

(** ** Notes that lie inside the render window *)

(** A note the loop skips, or at which it stops, or that it can render
    without leaving the output buffer: it starts inside the window, ends
    inside it, is trimmed to its duration, and plays a sample (not the
    synthesizer placeholder) on an existing track whose wavetable has the
    rate of the Timeline. *)
Definition renders_inside (self : Timeline.t) (st e : Q) (n : Note.t) : Prop :=
  (Note.start_time n + Note.duration n <= st)%Q ∨
  (e <= Note.start_time n)%Q ∨
  ((st <= Note.start_time n)%Q ∧
   (Note.start_time n + Note.duration n <= e)%Q ∧
   (0 <= Note.duration n)%Q ∧
   Note.time_wise n = true ∧
   ∃ track c,
     Timeline.tracks self !! Note.track_id n = Some track ∧
     Wavetable.sr (Instrument.wavetable (Track.instrument track)) = Timeline.sr self ∧
     wt_resolve (Instrument.wavetable (Track.instrument track)) (Note.note n) = PyArr c).

(** ** What rendering may change in a track *)

(** The same track, with a cache that may have grown: same id, same
    generator, same rate, and every old cache entry still there. *)
Definition track_extends (t t' : Track.t) : Prop :=
  Track.id t' = Track.id t ∧
  Wavetable.sound_generator (Instrument.wavetable (Track.instrument t'))
  = Wavetable.sound_generator (Instrument.wavetable (Track.instrument t)) ∧
  Wavetable.sr (Instrument.wavetable (Track.instrument t'))
  = Wavetable.sr (Instrument.wavetable (Track.instrument t)) ∧
  Wavetable.wavetable (Instrument.wavetable (Track.instrument t))
  ⊆ Wavetable.wavetable (Instrument.wavetable (Track.instrument t')).

(** A note that starts at or after [st], is trimmed to its non-negative
    duration, and plays a sample on an existing track whose wavetable has
    the rate of the Timeline. *)
Definition plays_trimmed_sample (self : Timeline.t) (st : Q) (n : Note.t) : Prop :=
  (st <= Note.start_time n)%Q ∧
  (0 <= Note.duration n)%Q ∧
  Note.time_wise n = true ∧
  ∃ track c,
    Timeline.tracks self !! Note.track_id n = Some track ∧
    Wavetable.sr (Instrument.wavetable (Track.instrument track)) = Timeline.sr self ∧
    wt_resolve (Instrument.wavetable (Track.instrument track)) (Note.note n) = PyArr c.

(** ** The sum a mix should be *)




(** * Properties *)

(** ** Track identifiers *)

Section track_ids.
Implicit Types (trs : gmap Z Track.t) (self : Timeline.t).

(** The [while] loop of [add_track] stops at the first identifier, counting
    up from its starting point, that is not a key of [self.tracks]. *)
Lemma free_id_spec trs t_id :
  (t_id ≤ Timeline.free_id trs t_id)%Z ∧
  (Timeline.free_id trs t_id ∉ dom trs) ∧
  ∀ j, (t_id ≤ j < Timeline.free_id trs t_id)%Z → j ∈ dom trs.
Proof.
  funelim (Timeline.free_id trs t_id).
  - destruct H as (Hle & Hfree & Hbelow).
    split; [lia |]. split; [done |].
    intros j Hj. destruct (decide (j = t_id)) as [-> | Hne]; [done |].
    apply Hbelow. lia.
  - split; [lia |]. split; [done |]. intros j Hj. lia.
Qed.

Lemma populate_tracks_collision self track rest :
  Track.id track ∈ dom (Timeline.tracks self) →
  Timeline.populate_tracks self (track :: rest)
  = (Raise (Warning_collision (Track.id track)), self).
Proof. intros Hin. simpl. by rewrite decide_True. Qed.
End track_ids.

(** ** Sorted insertion *)

Section sorting.
Implicit Types (a l : list Note.t) (keys : list Q) (x : Q).

Lemma Qltb_lt x y : Qltb x y = true ↔ (x < y)%Q.
Proof.
  unfold Qltb. rewrite Qlt_alt. destruct (x ?= y)%Q; split; congruence.
Qed.

Lemma Qltb_ge x y : Qltb x y = false ↔ (y <= x)%Q.
Proof.
  split.
  - intros H. apply Qnot_lt_le. intros Hlt%Qltb_lt. congruence.
  - intros H. destruct (Qltb x y) eqn:E; [| done].
    apply Qltb_lt in E. exfalso. by apply (Qlt_not_le x y).
Qed.

Lemma StronglySorted_Qle_lookup keys i j y z :
  StronglySorted Qle keys → i ≤ j →
  keys !! i = Some y → keys !! j = Some z → (y <= z)%Q.
Proof.
  intros Hs. revert i j. induction Hs as [| k keys Hs IH Hall]; intros i j Hij Hi Hj.
  - done.
  - destruct i as [| i], j as [| j]; simpl in Hi, Hj.
    + replace z with y by congruence. apply Qle_refl.
    + replace y with k by congruence.
      rewrite Forall_forall in Hall. apply Hall.
      by eapply list_elem_of_lookup_2.
    + lia.
    + apply (IH i j); [lia | done | done].
Qed.

Lemma bisect_loop_spec keys x lo hi :
  StronglySorted Qle keys →
  lo ≤ hi ≤ length keys →
  (∀ i y, i < lo → keys !! i = Some y → (y <= x)%Q) →
  (∀ i y, hi ≤ i → keys !! i = Some y → (x < y)%Q) →
  lo ≤ bisect_loop keys x lo hi ≤ hi ∧
  (∀ i y, i < bisect_loop keys x lo hi → keys !! i = Some y → (y <= x)%Q) ∧
  (∀ i y, bisect_loop keys x lo hi ≤ i → keys !! i = Some y → (x < y)%Q).
Proof.
  funelim (bisect_loop keys x lo hi); intros Hs Hb Hlo Hhi.
  - split; [lia |]. split; [done |].
    intros i z Hi Hz. apply (Hhi i z); [lia | done].
  - pose proof (Nat.div_mod_eq (lo + hi) 2) as Hdm.
    pose proof (Nat.mod_upper_bound (lo + hi) 2) as Hm.
    destruct (Qltb x y) eqn:E.
    + apply Qltb_lt in E.
      destruct H as (Hr & Hle & Hgt); [done | lia | done | |].
      { intros i z Hi Hz. eapply Qlt_le_trans; [exact E |].
        by eapply (StronglySorted_Qle_lookup a ((lo + hi) `div` 2) i). }
      split; [lia | done].
    + apply Qltb_ge in E.
      destruct H0 as (Hr & Hle & Hgt); [done | lia | | done |].
      { intros i z Hi Hz. eapply Qle_trans; [| exact E].
        eapply (StronglySorted_Qle_lookup a i ((lo + hi) `div` 2)); [done | lia | done..]. }
      split; [lia | done].
  - pose proof (Nat.div_mod_eq (lo + hi) 2) as Hdm.
    pose proof (Nat.mod_upper_bound (lo + hi) 2) as Hm.
    apply lookup_ge_None in Heq. lia.
Qed.

Lemma start_times_sorted a :
  StronglySorted start_le a → StronglySorted Qle (map Note.start_time a).
Proof.
  induction 1 as [| m a Hs IH Hall]; simpl; constructor; [done |].
  rewrite Forall_forall in Hall. apply Forall_forall. intros y Hy.
  apply list_elem_of_fmap in Hy as (m' & -> & Hin). by apply Hall.
Qed.

(** [insort] puts the new note after every note that does not start
    later, and before every note that starts later. *)
Lemma insort_split a n :
  StronglySorted start_le a →
  ∃ l1 l2,
    a = l1 ++ l2 ∧ insort a n = l1 ++ n :: l2 ∧
    Forall (λ m, (Note.start_time m <= Note.start_time n)%Q) l1 ∧
    Forall (λ m, (Note.start_time n < Note.start_time m)%Q) l2.
Proof.
  intros Hs. unfold insort, bisect_right.
  destruct (bisect_loop_spec (map Note.start_time a) (Note.start_time n) 0 (length a))
    as (Hr & Hle & Hgt).
  - by apply start_times_sorted.
  - rewrite length_map. lia.
  - intros; lia.
  - intros i y Hi Hy. apply lookup_lt_Some in Hy. rewrite length_map in Hy. lia.
  - set (r := bisect_loop _ _ _ _) in *.
    exists (take r a), (drop r a). split; [by rewrite take_drop |]. split; [done |].
    split; apply Forall_lookup; intros i m Hm.
    + apply lookup_take_Some in Hm as [Hm Hi].
      apply (Hle i); [done |]. by rewrite list_lookup_fmap, Hm.
    + rewrite lookup_drop in Hm.
      apply (Hgt (r + i)); [lia |]. by rewrite list_lookup_fmap, Hm.
Qed.

Lemma insort_sorted a n :
  StronglySorted start_le a → StronglySorted start_le (insort a n).
Proof.
  intros Hs. destruct (insort_split a n Hs) as (l1 & l2 & -> & -> & H1 & H2).
  apply StronglySorted_app in Hs as (H12 & Hs1 & Hs2).
  rewrite Forall_forall in H1, H2.
  apply StronglySorted_app. split; [| split; [done |]].
  - intros m1 m2 Hm1 Hm2. apply elem_of_cons in Hm2 as [-> | Hm2].
    + by apply H1.
    + by apply H12.
  - constructor; [done |]. apply Forall_forall. intros m Hm.
    apply Qlt_le_weak. by apply H2.
Qed.

Lemma foldl_insort_sorted ns a :
  StronglySorted start_le a → StronglySorted start_le (foldl insort a ns).
Proof.
  revert a. induction ns as [| n ns IH]; intros a Hs; simpl; [done |].
  apply IH. by apply insort_sorted.
Qed.
End sorting.

(** ** C3: [add_note] keeps the notes sorted and is stable *)

Lemma populate_tracks_fields self trs r self' :
  Timeline.populate_tracks self trs = (r, self') →
  Timeline.notes self' = Timeline.notes self ∧
  Timeline.keep_sorted self' = Timeline.keep_sorted self ∧
  Timeline.sr self' = Timeline.sr self.
Proof.
  revert self. induction trs as [| track trs IH]; intros self H; simpl in H.
  - by inversion H.
  - case_decide; [by inversion H |]. by apply IH in H.
Qed.

Lemma init_sorted trs ns sr bpm self :
  Timeline.init trs ns true sr bpm = Ok self →
  Timeline.keep_sorted self = true ∧ StronglySorted start_le (Timeline.notes self).
Proof.
  unfold Timeline.init. intros H.
  destruct (Timeline.populate_tracks _ trs) as [[u | e] self0] eqn:E; [| done].
  apply populate_tracks_fields in E as (Hn & Hk & _). simpl in Hn, Hk.
  inversion H; subst self. unfold Timeline.populate_notes. rewrite Hk. simpl.
  split; [done |]. rewrite Hn. apply foldl_insort_sorted. constructor.
Qed.

Lemma add_notes_sorted adds self :
  Timeline.keep_sorted self = true →
  StronglySorted start_le (Timeline.notes self) →
  Timeline.keep_sorted (foldl Timeline.add_note self adds) = true ∧
  StronglySorted start_le (Timeline.notes (foldl Timeline.add_note self adds)).
Proof.
  revert self. induction adds as [| n adds IH]; intros self Hk Hs; simpl; [done |].
  apply IH; unfold Timeline.add_note; rewrite Hk; simpl; [done |].
  by apply insort_sorted.
Qed.

(** C3. On a Timeline constructed with [keep_sorted = True], after any
    sequence of [add_note] calls the notes are in non-decreasing order of
    [start_time]; and one more [add_note] puts the new note after every
    note that does not start later (so after all notes with an equal
    [start_time]) and before every note that starts later, leaving the
    other notes in their order. *)
Theorem add_note_keeps_sorted_stable trs ns sr bpm self adds :
  Timeline.init trs ns true sr bpm = Ok self →
  let self' := foldl Timeline.add_note self adds in
  StronglySorted start_le (Timeline.notes self') ∧
  ∀ n, ∃ l1 l2,
    Timeline.notes self' = l1 ++ l2 ∧
    Timeline.notes (Timeline.add_note self' n) = l1 ++ n :: l2 ∧
    Forall (λ m, (Note.start_time m <= Note.start_time n)%Q) l1 ∧
    Forall (λ m, (Note.start_time n < Note.start_time m)%Q) l2.
Proof.
  intros Hinit. cbv zeta.
  destruct (init_sorted _ _ _ _ _ Hinit) as [Hk Hs].
  destruct (add_notes_sorted adds self Hk Hs) as [Hk' Hs'].
  split; [done |]. intros n.
  destruct (insort_split _ n Hs') as (l1 & l2 & Hn & Hi & H1 & H2).
  exists l1, l2. split; [done |]. split; [| done].
  unfold Timeline.add_note at 1. rewrite Hk'. simpl. done.
Qed.

Lemma add_note_keeps_sorted_stable_witness :
  ∃ self,
    Timeline.init [ex_track 0] [ex_note 1 1 1 false; ex_note 0 1 1 false]
                  true 4 120 = Ok self ∧
    let self' := foldl Timeline.add_note self [ex_note 1 1 (1 # 2) false] in
    StronglySorted start_le (Timeline.notes self') ∧
    ∀ n, ∃ l1 l2,
      Timeline.notes self' = l1 ++ l2 ∧
      Timeline.notes (Timeline.add_note self' n) = l1 ++ n :: l2 ∧
      Forall (λ m, (Note.start_time m <= Note.start_time n)%Q) l1 ∧
      Forall (λ m, (Note.start_time n < Note.start_time m)%Q) l2.
Proof.
  eexists. split; [reflexivity |].
  apply (add_note_keeps_sorted_stable
           [ex_track 0] [ex_note 1 1 1 false; ex_note 0 1 1 false] 4 120 _
           [ex_note 1 1 (1 # 2) false]).
  reflexivity.
Defined.

(** ** C7: the identifier chosen by [add_track] *)

(** C7 (as amended). [add_track] assigns the smallest integer that is at
    least the current number of tracks and is not already a track id; it
    stores the new track under that id, returns the id, and leaves the
    notes alone. *)
Theorem add_track_id self instrument name :
  let n := Z.of_nat (size (Timeline.tracks self)) in
  let t_id := fst (Timeline.add_track self instrument name) in
  let self' := snd (Timeline.add_track self instrument name) in
  (n ≤ t_id)%Z ∧
  (t_id ∉ dom (Timeline.tracks self)) ∧
  (∀ j, (n ≤ j < t_id)%Z → j ∈ dom (Timeline.tracks self)) ∧
  (∃ track,
     Timeline.tracks self' = <[t_id := track]> (Timeline.tracks self) ∧
     Track.id track = t_id ∧
     Track.instrument track =
       match instrument with
       | inl i => i
       | inr g => Instrument.mk (Wavetable.init g 44100)
       end) ∧
  Timeline.notes self' = Timeline.notes self.
Proof.
  cbv zeta. unfold Timeline.add_track. simpl.
  destruct (free_id_spec (Timeline.tracks self) (Z.of_nat (size (Timeline.tracks self))))
    as (Hle & Hfree & Hbelow).
  split; [done |]. split; [done |]. split; [done |]. split; [| done].
  eexists. split; [reflexivity |]. done.
Qed.

(** C7 as stated fails: with the single track id 5 in use, [add_track]
    returns 1, although 0 is not in use. *)
Lemma add_track_not_smallest_unused :
  Timeline.init [ex_track 5] [] true 4 120 = Ok ex_timeline_5 ∧
  fst (Timeline.add_track ex_timeline_5 (inr ex_kick) None) = 1%Z ∧
  ¬ smallest_unused_nonneg (Timeline.tracks ex_timeline_5)
      (fst (Timeline.add_track ex_timeline_5 (inr ex_kick) None)).
Proof.
  split; [reflexivity |].
  assert (Hid : fst (Timeline.add_track ex_timeline_5 (inr ex_kick) None) = 1%Z)
    by (vm_compute; reflexivity).
  split; [exact Hid |]. rewrite Hid.
  intros (_ & _ & Hmin). specialize (Hmin 0%Z). simpl in Hmin.
  assert (1 ≤ 0)%Z; [| lia]. apply Hmin; [lia |].
  rewrite dom_insert_L, dom_empty_L, elem_of_union, elem_of_singleton, elem_of_empty.
  intros [? | ?]; done.
Qed.

(** ** C8: a track id collision in [populate_tracks] *)

(** C8 is not what the code does: [populate_tracks] raises [Warning] at the
    first colliding id.  The old track stays, the new one is not stored and
    the tracks after it are not processed; the constructor, which calls
    [populate_tracks], fails as a whole. *)
Theorem populate_tracks_collision_aborts :
  Timeline.init [ex_track 0] [] true 4 120 = Ok ex_timeline_0 ∧
  Timeline.populate_tracks ex_timeline_0
    [Track.mk 0 (Instrument.mk (Wavetable.init AudioSynthesizer 4)); ex_track 1]
  = (Raise (Warning_collision 0), ex_timeline_0) ∧
  Timeline.tracks ex_timeline_0 !! 0%Z = Some (ex_track 0) ∧
  Timeline.tracks ex_timeline_0 !! 1%Z = None ∧
  Timeline.init
    [ex_track 0; Track.mk 0 (Instrument.mk (Wavetable.init AudioSynthesizer 4));
     ex_track 1] [] true 4 120
  = Raise (Warning_collision 0).
Proof.
  split; [reflexivity |]. split; [| split; [| split]].
  - apply populate_tracks_collision. simpl.
    rewrite dom_insert_L. set_solver.
  - simpl. by rewrite lookup_insert_eq.
  - simpl. rewrite lookup_insert_ne; [| done]. apply lookup_empty.
  - vm_compute. reflexivity.
Qed.

(** ** C1: a note whose rendered buffer passes the end of the output *)

(** The slice [audio_data[start_idx:end_idx]] is cut at the end of the
    buffer, the rendered buffer is not: when the rendered buffer has more
    than one sample, [+=] raises. *)
Lemma np_iadd_past_end b L sound h start_idx :
  (0 ≤ start_idx)%Z →
  (Z.of_nat L < start_idx + Z.of_nat (arr_len sound))%Z →
  1 < arr_len sound →
  np_iadd (np_slice (NdArray b 0 L) start_idx
                    (start_idx + Z.of_nat (arr_len sound))) sound h
  = (Raise (ValueError_broadcast (L - Z.to_nat start_idx) (arr_len sound)), h).
Proof.
  intros H0 Hover H1. unfold np_iadd, np_slice, slice_index. simpl.
  destruct (start_idx <? 0)%Z eqn:E1; [lia |].
  destruct (start_idx + Z.of_nat (arr_len sound) <? 0)%Z eqn:E2; [lia |].
  assert (Hhi : Z.to_nat (Z.min (start_idx + Z.of_nat (arr_len sound)) (Z.of_nat L)) = L)
    by lia.
  assert (Hk : L - Z.to_nat (Z.min start_idx (Z.of_nat L)) = L - Z.to_nat start_idx)
    by lia.
  rewrite Hhi, Hk. rewrite !decide_False by lia. done.
Qed.

(** C1 is not what the code does.  A one-second note played untrimmed on a
    two-second sample makes [generate_audio] raise [ValueError] (shapes
    (4,) and (8,)), with the default window and with the window [0, 1]:
    nothing is clipped and no buffer is returned. *)
Theorem generate_audio_past_end_raises :
  Timeline.init [ex_track 0] [ex_note 0 1 1 false] true 4 120
  = Ok ex_timeline_overrun ∧
  fst (fst (Timeline.generate_audio ex_timeline_overrun 0 None ex_world))
  = Raise (ValueError_broadcast 4 8) ∧
  fst (fst (Timeline.generate_audio ex_timeline_overrun 0 (Some 1%Q) ex_world))
  = Raise (ValueError_broadcast 4 8).
Proof.
  split; [reflexivity |]. split; vm_compute; reflexivity.
Qed.

(** ** C4 and C10: the Wavetable cache *)

Section wavetable.
Implicit Types (self : Wavetable.t) (k : Pitch) (w : World).

Lemma getitem_hit self k w v :
  Wavetable.wavetable self !! k = Some v →
  Wavetable.__getitem__ self k w = (v, self, w).
Proof. intros H. unfold Wavetable.__getitem__. by rewrite H. Qed.

Lemma getitem_miss self k w :
  Wavetable.wavetable self !! k = None →
  Wavetable.__getitem__ self k w
  = (SoundGenerator_get_sound (Wavetable.sound_generator self) (Some (Wavetable.sr self)),
     Wavetable.mk (Wavetable.sound_generator self) (Wavetable.sr self)
       (<[k := SoundGenerator_get_sound (Wavetable.sound_generator self)
                 (Some (Wavetable.sr self))]> (Wavetable.wavetable self)),
     emit (EvGenerate k) w).
Proof. intros H. unfold Wavetable.__getitem__. by rewrite H. Qed.

(** A lookup returns what [wt_resolve] says, and changes no later answer. *)
Lemma getitem_resolve self k w :
  fst (fst (Wavetable.__getitem__ self k w)) = wt_resolve self k.
Proof.
  unfold wt_resolve. destruct (Wavetable.wavetable self !! k) as [v |] eqn:E.
  - by rewrite (getitem_hit _ _ _ v).
  - by rewrite getitem_miss.
Qed.

Lemma getitem_resolve_after self k w k' :
  wt_resolve (snd (fst (Wavetable.__getitem__ self k w))) k' = wt_resolve self k'.
Proof.
  destruct (Wavetable.wavetable self !! k) as [v |] eqn:E.
  - by rewrite (getitem_hit _ _ _ v).
  - rewrite getitem_miss by done. unfold wt_resolve. simpl.
    destruct (decide (k = k')) as [<- | Hne].
    + by rewrite lookup_insert_eq, E.
    + by rewrite lookup_insert_ne.
Qed.

Lemma getitem_fields self k w :
  Wavetable.sound_generator (snd (fst (Wavetable.__getitem__ self k w)))
  = Wavetable.sound_generator self ∧
  Wavetable.sr (snd (fst (Wavetable.__getitem__ self k w))) = Wavetable.sr self ∧
  heap (snd (Wavetable.__getitem__ self k w)) = heap w.
Proof.
  destruct (Wavetable.wavetable self !! k) as [v |] eqn:E.
  - by rewrite (getitem_hit _ _ _ v).
  - by rewrite getitem_miss.
Qed.

Lemma lookups_spec ks : ∀ self w,
  ∃ new,
    trace (snd (lookups self ks w)) = trace w ++ map EvGenerate new ∧
    NoDup new ∧
    (∀ k, k ∈ new → Wavetable.wavetable self !! k = None ∧ k ∈ ks) ∧
    Wavetable.wavetable self ⊆ Wavetable.wavetable (snd (fst (lookups self ks w))) ∧
    Forall2 (λ k v, Wavetable.wavetable (snd (fst (lookups self ks w))) !! k = Some v)
            ks (fst (fst (lookups self ks w))).
Proof.
  induction ks as [| k ks IH]; intros self w; simpl.
  - exists []. simpl. rewrite app_nil_r. repeat split; try done; [constructor | set_solver].
  - destruct (Wavetable.wavetable self !! k) as [v |] eqn:E.
    + rewrite (getitem_hit _ _ _ v) by done.
      destruct (IH self w) as (new & Htr & Hnd & Hnew & Hsub & Hall).
      destruct (lookups self ks w) as [[vs self'] w']. simpl in *.
      exists new. repeat split; try done.
      * by apply Hnew.
      * apply elem_of_cons. right. by apply Hnew.
      * constructor; [| done]. by eapply lookup_weaken.
    + rewrite getitem_miss by done.
      set (v := SoundGenerator_get_sound _ _).
      set (self1 := Wavetable.mk _ _ _).
      destruct (IH self1 (emit (EvGenerate k) w)) as (new & Htr & Hnd & Hnew & Hsub & Hall).
      destruct (lookups self1 ks _) as [[vs self'] w']. simpl in *.
      exists (k :: new). split; [by rewrite Htr, <- app_assoc |].
      split; [| split; [| split]].
      * constructor; [| done]. intros Hin. apply Hnew in Hin as [Hin _].
        by rewrite lookup_insert_eq in Hin.
      * intros k' [-> | Hin]%elem_of_cons; [split; [done | by left] |].
        apply Hnew in Hin as [Hnone Hin]. split; [| by right].
        destruct (decide (k = k')) as [-> | Hne]; [by rewrite lookup_insert_eq in Hnone |].
        by rewrite lookup_insert_ne in Hnone.
      * etrans; [| exact Hsub]. by apply insert_subseteq.
      * constructor; [| done]. eapply lookup_weaken; [| exact Hsub].
        apply lookup_insert_eq.
Qed.

Lemma lookups_heap ks : ∀ self w, heap (snd (lookups self ks w)) = heap w.
Proof.
  induction ks as [| k ks IH]; intros self w; simpl; [done |].
  pose proof (getitem_fields self k w) as (_ & _ & Hh).
  destruct (Wavetable.__getitem__ self k w) as [[v self1] w1]. simpl in Hh.
  specialize (IH self1 w1). destruct (lookups self1 ks w1) as [[vs self2] w2].
  simpl in *. congruence.
Qed.

Lemma lookups_from_generator ks : ∀ self w,
  map_Forall (λ _ v, v = SoundGenerator_get_sound (Wavetable.sound_generator self)
                           (Some (Wavetable.sr self))) (Wavetable.wavetable self) →
  Forall (λ v, v = SoundGenerator_get_sound (Wavetable.sound_generator self)
                     (Some (Wavetable.sr self)))
         (fst (fst (lookups self ks w))).
Proof.
  induction ks as [| k ks IH]; intros self w Hinv; simpl; [constructor |].
  destruct (Wavetable.wavetable self !! k) as [v |] eqn:E.
  - rewrite (getitem_hit _ _ _ v) by done.
    specialize (IH self w Hinv). destruct (lookups self ks w) as [[vs self'] w'].
    simpl in *. constructor; [| done]. by apply (Hinv k).
  - rewrite getitem_miss by done.
    set (self1 := Wavetable.mk _ _ _).
    specialize (IH self1 (emit (EvGenerate k) w)).
    destruct (lookups self1 ks _) as [[vs self'] w']. simpl in *.
    constructor; [done |]. apply IH. by apply map_Forall_insert_2.
Qed.
End wavetable.

(** C4. Over any sequence of lookups on a Wavetable, starting from its
    construction, the generator is invoked at most once per pitch key (the
    keys it was invoked for are pairwise distinct, and each is a key that
    was looked up); lookups of the same pitch return the same buffer, and
    no lookup writes to the heap, so the samples are equal too; and a
    repeated lookup is served from the cache: it changes neither the cache
    nor the log of generator calls. *)
Theorem wavetable_memoizes generator sr ks w :
  let vs := fst (fst (lookups (Wavetable.init generator sr) ks w)) in
  let self' := snd (fst (lookups (Wavetable.init generator sr) ks w)) in
  let w' := snd (lookups (Wavetable.init generator sr) ks w) in
  (∃ new, trace w' = trace w ++ map EvGenerate new ∧ NoDup new ∧ new ⊆ ks) ∧
  (∀ i j k vi vj,
     ks !! i = Some k → ks !! j = Some k →
     vs !! i = Some vi → vs !! j = Some vj → vi = vj) ∧
  heap w' = heap w ∧
  (∀ i k v,
     ks !! i = Some k → vs !! i = Some v →
     Wavetable.__getitem__ self' k w' = (v, self', w')).
Proof.
  cbv zeta.
  destruct (lookups_spec ks (Wavetable.init generator sr) w)
    as (new & Htr & Hnd & Hnew & _ & Hall).
  split; [| split; [| split; [apply lookups_heap |]]].
  - exists new. split; [done |]. split; [done |]. intros k Hk. by apply Hnew.
  - intros i j k vi vj Hi Hj Hvi Hvj.
    pose proof (Forall2_lookup_lr _ _ _ _ _ _ Hall Hi Hvi) as H1.
    pose proof (Forall2_lookup_lr _ _ _ _ _ _ Hall Hj Hvj) as H2.
    simpl in H1, H2. congruence.
  - intros i k v Hi Hv.
    pose proof (Forall2_lookup_lr _ _ _ _ _ _ Hall Hi Hv) as H1. simpl in H1.
    by apply getitem_hit.
Qed.

(** C10. [Wavetable.get_sound] hands only the sample rate to the generator,
    so its value does not depend on the key; and over any sequence of
    lookups on a Wavetable, starting from its construction, every lookup
    returns the one buffer of the generator: lookups of any two pitches
    return equal buffers. *)
Theorem wavetable_ignores_pitch generator sr ks w :
  let vs := fst (fst (lookups (Wavetable.init generator sr) ks w)) in
  (∀ self k1 k2 w1 w2,
     fst (Wavetable.get_sound self k1 w1) = fst (Wavetable.get_sound self k2 w2)) ∧
  Forall (λ v, v = SoundGenerator_get_sound generator (Some sr)) vs ∧
  (∀ i j vi vj, vs !! i = Some vi → vs !! j = Some vj → vi = vj).
Proof.
  cbv zeta. split; [done |].
  assert (Hall : Forall (λ v, v = SoundGenerator_get_sound generator (Some sr))
                   (fst (fst (lookups (Wavetable.init generator sr) ks w)))).
  { apply (lookups_from_generator ks (Wavetable.init generator sr) w).
    simpl. apply map_Forall_empty. }
  split; [done |]. intros i j vi vj Hi Hj.
  rewrite Forall_lookup in Hall.
  rewrite (Hall i vi Hi), (Hall j vj Hj). done.
Qed.

(** ** Buffers in the heap *)

Section buffers.
Implicit Types (h : list (list Q)) (a : ndarray) (out s : list Q).

Lemma np_read_prefix h0 h a :
  h0 `prefix_of` h → arr_base a < length h0 → np_read h a = np_read h0 a.
Proof.
  intros [k ->] Hlt. unfold np_read. by rewrite lookup_app_l.
Qed.

Lemma np_read_fresh h s m :
  np_read (h ++ [s]) (NdArray (length h) 0 m) = take m s.
Proof.
  unfold np_read. simpl. by rewrite list_lookup_middle.
Qed.

Lemma slice_index_le i len : slice_index i len ≤ len.
Proof. unfold slice_index. destruct (i <? 0)%Z eqn:E; lia. Qed.

Lemma slice_index_0 len : slice_index 0 len = 0.
Proof. unfold slice_index. simpl. lia. Qed.

Lemma np_mul_fresh a v h :
  np_mul a v h
  = (NdArray (length h) 0 (length (np_read h a)),
     h ++ [map (λ x, x * v)%Q (np_read h a)]).
Proof. unfold np_mul, np_alloc. by rewrite length_map. Qed.

Lemma accumulate_length out start stop s out' :
  accumulate out start stop s = Ok out' → length out' = length out.
Proof.
  unfold accumulate.
  pose proof (slice_index_le start (length out)) as Hlo.
  pose proof (slice_index_le stop (length out)) as Hhi.
  set (lo := slice_index start (length out)) in *.
  set (hi := slice_index stop (length out)) in *.
  intros H. repeat case_decide; inversion H; subst out'.
  - rewrite !length_app, length_zip_with, !length_take, !length_drop. lia.
  - rewrite !length_app, length_map, !length_take, !length_drop. lia.
Qed.

(** [audio_data[start:stop] += sound] on a whole buffer [audio_data],
    for a [sound] that lives in another buffer. *)
Lemma np_iadd_whole b L out src h start stop :
  h !! b = Some out → length out = L → arr_base src ≠ b →
  arr_len src = length (np_read h src) →
  np_iadd (np_slice (NdArray b 0 L) start stop) src h
  = match accumulate out start stop (np_read h src) with
    | Ok out' => (Ok tt, <[b := out']> h)
    | Raise e => (Raise e, h)
    end.
Proof.
  intros Hb HL Hne Hlen. unfold np_iadd, accumulate, np_slice. simpl.
  rewrite HL, <- Hlen.
  set (lo := slice_index start L). set (hi := slice_index stop L).
  assert (Hrd : np_read h (NdArray b lo (hi - lo)) = take (hi - lo) (drop lo out)).
  { unfold np_read. simpl. by rewrite Hb. }
  assert (Hwr : ∀ vals,
             np_write (NdArray b lo (hi - lo)) vals h
             = <[b := take lo out ++ vals ++ drop (lo + (hi - lo)) out]> h).
  { intros vals. unfold np_write. simpl. apply list_eq. intros i.
    destruct (decide (i = b)) as [-> | Hi].
    - rewrite list_lookup_alter_eq, Hb. simpl.
      rewrite list_lookup_insert_eq; [done |]. by eapply lookup_lt_Some.
    - rewrite list_lookup_alter_ne, list_lookup_insert_ne; done. }
  rewrite Hrd, !Hwr. repeat case_decide; done.
Qed.
End buffers.

(** ** C5: [play_note] and the cached buffer *)

Section play_note.
Implicit Types (self : Instrument.t) (wt : Wavetable.t) (n : Note.t) (w : World).

Lemma resolve_allocated N wt k :
  wavetable_allocated N wt → allocated N (wt_resolve wt k).
Proof.
  intros [Hgen Hcache]. unfold wt_resolve.
  destruct (Wavetable.wavetable wt !! k) as [v |] eqn:E; [| done].
  by apply (Hcache k).
Qed.

Lemma getitem_allocated N wt k w :
  wavetable_allocated N wt →
  wavetable_allocated N (snd (fst (Wavetable.__getitem__ wt k w))).
Proof.
  intros [Hgen Hcache].
  destruct (Wavetable.wavetable wt !! k) as [v |] eqn:E.
  - by rewrite (getitem_hit _ _ _ v).
  - rewrite getitem_miss by done. split; [done |]. simpl.
    by apply map_Forall_insert_2.
Qed.

Lemma getitem_cached wt k w :
  Wavetable.wavetable (snd (fst (Wavetable.__getitem__ wt k w))) !! k
  = Some (wt_resolve wt k) ∧
  Wavetable.wavetable wt ⊆ Wavetable.wavetable (snd (fst (Wavetable.__getitem__ wt k w))).
Proof.
  unfold wt_resolve. destruct (Wavetable.wavetable wt !! k) as [v |] eqn:E.
  - by rewrite (getitem_hit _ _ _ v).
  - rewrite getitem_miss by done. simpl. split; [apply lookup_insert_eq |].
    by apply insert_subseteq.
Qed.

(** [play_note], with the lookup replaced by its value and the fresh
    buffer by its cell. *)
Lemma play_note_eq self n w :
  Instrument.play_note self n w
  = let wt := Instrument.wavetable self in
    let res := Wavetable.__getitem__ wt (Note.note n) (emit (EvPlay n) w) in
    match wt_resolve wt (Note.note n) with
    | PyNone => (Raise TypeError_NoneType, Instrument.mk (snd (fst res)), snd res)
    | PyArr c =>
        let s := map (λ x, x * Note.velocity n)%Q (np_read (heap w) c) in
        let whole := NdArray (length (heap w)) 0 (length s) in
        (Ok (if Note.time_wise n
             then np_slice whole 0 (py_int (Note.duration n * inject_Z (Wavetable.sr wt)))
             else whole),
         Instrument.mk (snd (fst res)), set_heap (heap w ++ [s]) (snd res))
    end.
Proof.
  unfold Instrument.play_note. cbv zeta.
  pose proof (getitem_resolve (Instrument.wavetable self) (Note.note n) (emit (EvPlay n) w)) as Hv.
  pose proof (getitem_fields (Instrument.wavetable self) (Note.note n) (emit (EvPlay n) w))
    as (_ & Hsr & Hh).
  destruct (Wavetable.__getitem__ _ _ _) as [[v wt'] w1]. simpl in Hv, Hsr, Hh.
  rewrite <- Hv. destruct v as [| c]; [done |].
  rewrite np_mul_fresh, Hh, Hsr, length_map. done.
Qed.

(** The samples seen through the view [play_note] returns. *)
Lemma play_note_sound h s n sr :
  let whole := NdArray (length h) 0 (length s) in
  let sound := if Note.time_wise n
               then np_slice whole 0 (py_int (Note.duration n * inject_Z sr))
               else whole in
  let samples := if Note.time_wise n
                 then take (slice_index (py_int (Note.duration n * inject_Z sr)) (length s)) s
                 else s in
  arr_base sound = length h ∧
  np_read (h ++ [s]) sound = samples ∧
  arr_len sound = length samples.
Proof.
  cbv zeta. destruct (Note.time_wise n).
  - unfold np_slice. simpl. rewrite slice_index_0, Nat.sub_0_r.
    pose proof (slice_index_le (py_int (Note.duration n * inject_Z sr)) (length s)).
    split; [done |]. rewrite np_read_fresh. split; [done |]. simpl.
    rewrite length_take. lia.
  - split; [done |]. rewrite np_read_fresh. by rewrite take_ge.
Qed.
End play_note.

(** C5. [play_note] never writes into a buffer that existed before the
    call: it only appends a fresh buffer to the heap, and never replaces a
    cache entry.  So when the pitch resolves to the buffer [c], playing it
    twice, with the velocities of [n1] and of [n2], returns the samples of
    [c] scaled by the velocity of [n1], and then those scaled by the
    velocity of [n2] (each trimmed as its note asks); the first result is
    not disturbed by the second call; the cache holds [c] for the pitch
    after both calls and the samples of [c] are what they were. *)
Theorem play_note_keeps_cached_buffer self n1 n2 w c :
  wt_resolve (Instrument.wavetable self) (Note.note n1) = PyArr c →
  arr_base c < length (heap w) →
  Note.note n2 = Note.note n1 →
  let res1 := Instrument.play_note self n1 w in
  let self1 := snd (fst res1) in
  let w1 := snd res1 in
  let res2 := Instrument.play_note self1 n2 w1 in
  let self2 := snd (fst res2) in
  let w2 := snd res2 in
  let sr := Wavetable.sr (Instrument.wavetable self) in
  let base := np_read (heap w) c in
  (∃ a1 a2,
     fst (fst res1) = Ok a1 ∧ fst (fst res2) = Ok a2 ∧
     np_read (heap w1) a1 = scaled_and_trimmed n1 sr base ∧
     np_read (heap w2) a1 = scaled_and_trimmed n1 sr base ∧
     np_read (heap w2) a2 = scaled_and_trimmed n2 sr base) ∧
  Wavetable.wavetable (Instrument.wavetable self1) !! Note.note n1 = Some (PyArr c) ∧
  Wavetable.wavetable (Instrument.wavetable self2) !! Note.note n1 = Some (PyArr c) ∧
  np_read (heap w1) c = base ∧
  np_read (heap w2) c = base ∧
  heap w `prefix_of` heap w1 ∧
  heap w1 `prefix_of` heap w2.
Proof.
  intros Hc Halloc Hk. cbv zeta.
  set (wt := Instrument.wavetable self) in *.
  (* first call *)
  rewrite (play_note_eq self n1 w). cbv zeta. fold wt. rewrite Hc.
  set (g1 := Wavetable.__getitem__ wt (Note.note n1) (emit (EvPlay n1) w)).
  pose proof (getitem_resolve_after wt (Note.note n1) (emit (EvPlay n1) w) (Note.note n1)) as Hres1.
  pose proof (getitem_fields wt (Note.note n1) (emit (EvPlay n1) w)) as (_ & Hsr1 & Hh1).
  pose proof (getitem_cached wt (Note.note n1) (emit (EvPlay n1) w)) as [Hc1 _].
  fold g1 in Hres1, Hsr1, Hh1, Hc1. rewrite Hc in Hres1, Hc1.
  set (s1 := map (λ x, x * Note.velocity n1)%Q (np_read (heap w) c)).
  cbn [fst snd].
  set (w1 := set_heap (heap w ++ [s1]) (snd g1)).
  set (wt1 := snd (fst g1)) in *.
  assert (Hpre1 : heap w `prefix_of` heap w1) by (by apply prefix_app_r).
  assert (Hrd1 : np_read (heap w1) c = np_read (heap w) c) by (by apply np_read_prefix).
  (* second call *)
  rewrite (play_note_eq (Instrument.mk wt1) n2 w1). cbv zeta.
  cbn [Instrument.wavetable]. rewrite Hk, Hres1, Hrd1, Hsr1.
  set (g2 := Wavetable.__getitem__ wt1 (Note.note n1) (emit (EvPlay n2) w1)).
  pose proof (getitem_cached wt1 (Note.note n1) (emit (EvPlay n2) w1)) as [Hc2 _].
  fold g2 in Hc2. rewrite Hres1 in Hc2.
  set (s2 := map (λ x, x * Note.velocity n2)%Q (np_read (heap w) c)).
  cbn [fst snd].
  set (w2 := set_heap (heap w1 ++ [s2]) (snd g2)).
  assert (Hpre2 : heap w1 `prefix_of` heap w2) by (by apply prefix_app_r).
  destruct (play_note_sound (heap w) s1 n1 (Wavetable.sr wt)) as (Hb1 & Hr1 & _).
  destruct (play_note_sound (heap w1) s2 n2 (Wavetable.sr wt)) as (Hb2 & Hr2 & _).
  cbv zeta in Hb1, Hr1, Hb2, Hr2.
  split; [| split; [done | split; [done | split; [done | split; [| done]]]]].
  - eexists _, _. split; [reflexivity |]. split; [reflexivity |].
    split; [exact Hr1 |]. split; [| exact Hr2].
    rewrite (np_read_prefix (heap w1) (heap w2)); [exact Hr1 | done |].
    rewrite Hb1. simpl. rewrite length_app. simpl. lia.
  - rewrite (np_read_prefix (heap w1) (heap w2)); [done | done |].
    simpl. rewrite length_app. lia.
Qed.

Lemma play_note_keeps_cached_buffer_witness :
  let n1 := ex_note 0 1 1 true in
  let n2 := ex_note 0 1 (1 # 2) true in
  let c := NdArray 0 0 8 in
  let res1 := Instrument.play_note ex_instrument n1 ex_world in
  let res2 := Instrument.play_note (snd (fst res1)) n2 (snd res1) in
  (∃ a1 a2,
     fst (fst res1) = Ok a1 ∧ fst (fst res2) = Ok a2 ∧
     np_read (heap (snd res1)) a1 = scaled_and_trimmed n1 4 (np_read (heap ex_world) c) ∧
     np_read (heap (snd res2)) a1 = scaled_and_trimmed n1 4 (np_read (heap ex_world) c) ∧
     np_read (heap (snd res2)) a2 = scaled_and_trimmed n2 4 (np_read (heap ex_world) c)) ∧
  Wavetable.wavetable (Instrument.wavetable (snd (fst res1))) !! Note.note n1
  = Some (PyArr c) ∧
  Wavetable.wavetable (Instrument.wavetable (snd (fst res2))) !! Note.note n1
  = Some (PyArr c) ∧
  np_read (heap (snd res1)) c = np_read (heap ex_world) c ∧
  np_read (heap (snd res2)) c = np_read (heap ex_world) c ∧
  heap ex_world `prefix_of` heap (snd res1) ∧
  heap (snd res1) `prefix_of` heap (snd res2).
Proof.
  apply (play_note_keeps_cached_buffer ex_instrument
           (ex_note 0 1 1 true) (ex_note 0 1 (1 # 2) true) ex_world (NdArray 0 0 8)).
  - reflexivity.
  - simpl. lia.
  - reflexivity.
Defined.

(** ** Sorting before rendering *)

Section sort_notes.
Implicit Types (l acc : list Note.t) (x : Note.t).

Lemma insert_by_start_last x l :
  Forall (λ m, (Note.start_time m <= Note.start_time x)%Q) l →
  insert_by_start x l = l ++ [x].
Proof.
  induction 1 as [| m l Hm Hl IH]; simpl; [done |].
  apply Qltb_ge in Hm. by rewrite Hm, IH.
Qed.

Lemma foldl_insert_sorted l : ∀ acc,
  StronglySorted start_le (acc ++ l) →
  foldl (λ acc x, insert_by_start x acc) acc l = acc ++ l.
Proof.
  induction l as [| x l IH]; intros acc Hs; simpl.
  - by rewrite app_nil_r.
  - rewrite insert_by_start_last.
    + rewrite IH; rewrite <- app_assoc; done.
    + apply StronglySorted_app in Hs as (H12 & _ & _).
      apply Forall_forall. intros m Hm. apply (H12 m x Hm). by left.
Qed.

(** A stable sort leaves a sorted list as it is. *)
Lemma list_sort_by_start_sorted l :
  StronglySorted start_le l → list_sort_by_start l = l.
Proof. intros Hs. unfold list_sort_by_start. by rewrite foldl_insert_sorted. Qed.

Lemma insert_by_start_elem x l m :
  m ∈ insert_by_start x l ↔ m = x ∨ m ∈ l.
Proof.
  induction l as [| y l IH]; simpl.
  - rewrite elem_of_cons. tauto.
  - destruct (Qltb _ _); [by rewrite elem_of_cons |]. rewrite !elem_of_cons, IH. tauto.
Qed.

Lemma insert_by_start_keeps_sorted x l :
  StronglySorted start_le l → StronglySorted start_le (insert_by_start x l).
Proof.
  induction 1 as [| y l Hs IH Hall]; simpl.
  - constructor; constructor.
  - destruct (Qltb _ _) eqn:E.
    + apply Qltb_lt in E. constructor; [by constructor |].
      constructor; [by apply Qlt_le_weak |].
      eapply Forall_impl; [exact Hall |]. intros m Hm. unfold start_le in *.
      eapply Qle_trans; [| exact Hm]. by apply Qlt_le_weak.
    + apply Qltb_ge in E. constructor; [done |].
      apply Forall_forall. intros m [-> | Hm]%insert_by_start_elem; [done |].
      rewrite Forall_forall in Hall. by apply Hall.
Qed.

Lemma list_sort_by_start_is_sorted l :
  StronglySorted start_le (list_sort_by_start l).
Proof.
  unfold list_sort_by_start.
  assert (H : ∀ acc, StronglySorted start_le acc →
              StronglySorted start_le (foldl (λ acc x, insert_by_start x acc) acc l)).
  { induction l as [| x l IH]; intros acc Hs; simpl; [done |].
    apply IH. by apply insert_by_start_keeps_sorted. }
  apply H. constructor.
Qed.
End sort_notes.

(** ** C2: the early exit of the render loop *)

Section early_exit.
Implicit Types (ns pre post : list Note.t) (trs : gmap Z Track.t) (w : World).

(** Notes that all start at or after [end_time] are skipped or end the
    loop: none is looked at further. *)
Lemma for_notes_late sr st et a ns trs w :
  Forall (λ m, (et <= Note.start_time m)%Q) ns →
  Timeline.for_notes sr st et a ns trs w = (Ok tt, trs, w).
Proof.
  induction 1 as [| m ns Hm Hns IH]; simpl; [done |].
  destruct (Qle_bool (Note.start_time m + Note.duration m) st); [done |].
  apply Qle_bool_iff in Hm. by rewrite Hm.
Qed.

Lemma for_notes_app_late sr st et a pre post : ∀ trs w,
  Forall (λ m, (et <= Note.start_time m)%Q) post →
  Timeline.for_notes sr st et a (pre ++ post) trs w
  = Timeline.for_notes sr st et a pre trs w.
Proof.
  induction pre as [| m pre IH]; intros trs w Hpost; simpl.
  - by apply for_notes_late.
  - destruct (Qle_bool (Note.start_time m + Note.duration m) st); [by apply IH |].
    destruct (Qle_bool et (Note.start_time m)); [done |].
    destruct (trs !! Note.track_id m) as [track |]; [| done].
    destruct (Instrument.play_note _ _ _) as [[[sound | e] inst] w1]; [| done].
    destruct (np_iadd _ _ _) as [[u | e] h]; [| done].
    by apply IH.
Qed.

Lemma sorted_tail_late et pre n post :
  StronglySorted start_le (pre ++ n :: post) →
  (et <= Note.start_time n)%Q →
  Forall (λ m, (et <= Note.start_time m)%Q) (n :: post).
Proof.
  intros Hs Hn. apply StronglySorted_app_1_r in Hs.
  apply StronglySorted_cons in Hs as [Hall _].
  constructor; [done |]. eapply Forall_impl; [exact Hall |].
  intros m Hm. by eapply Qle_trans.
Qed.

Lemma play_note_trace self n w :
  ∃ gens, trace (snd (Instrument.play_note self n w))
          = trace w ++ EvPlay n :: map EvGenerate gens.
Proof.
  rewrite play_note_eq. cbv zeta.
  assert (Hg : ∃ gens,
             trace (snd (Wavetable.__getitem__ (Instrument.wavetable self)
                           (Note.note n) (emit (EvPlay n) w)))
             = trace w ++ EvPlay n :: map EvGenerate gens).
  { destruct (Wavetable.wavetable (Instrument.wavetable self) !! Note.note n) as [v |] eqn:E.
    - rewrite (getitem_hit _ _ _ v) by done. by exists [].
    - rewrite getitem_miss by done. exists [Note.note n]. simpl.
      by rewrite <- app_assoc. }
  destruct Hg as [gens Hg]. exists gens.
  by destruct (wt_resolve _ _).
Qed.

Lemma visited_app tr1 tr2 m : visited (tr1 ++ tr2) m ↔ visited tr1 m ∨ visited tr2 m.
Proof. unfold visited. rewrite !elem_of_app. tauto. Qed.

(** Whatever the order of the notes, the loop resolves the track and
    calls the instrument only for notes that start before [end_time]. *)
Lemma for_notes_trace sr st et a ns : ∀ trs w,
  ∃ new,
    trace (snd (Timeline.for_notes sr st et a ns trs w)) = trace w ++ new ∧
    ∀ m, visited new m → m ∈ ns ∧ (Note.start_time m < et)%Q.
Proof.
  induction ns as [| n ns IH]; intros trs w; simpl.
  - exists []. rewrite app_nil_r. split; [done |].
    intros m [H | H]; by apply elem_of_nil in H.
  - destruct (Qle_bool (Note.start_time n + Note.duration n) st).
    { destruct (IH trs w) as (new & Htr & Hnew). exists new. split; [done |].
      intros m Hm. apply Hnew in Hm as [? ?]. split; [by right | done]. }
    destruct (Qle_bool et (Note.start_time n)) eqn:Elate.
    { exists []. rewrite app_nil_r. split; [done |].
      intros m [H | H]; by apply elem_of_nil in H. }
    assert (Hn : (Note.start_time n < et)%Q).
    { apply Qnot_le_lt. intros Hle%Qle_bool_iff. congruence. }
    assert (Hself : ∀ gens m,
               visited (EvResolve n :: EvPlay n :: map EvGenerate gens) m → m = n).
    { intros gens m [H | H].
      - apply elem_of_cons in H as [H | H]; [congruence |].
        apply elem_of_cons in H as [H | H]; [done |].
        apply list_elem_of_fmap in H as (k & Hk & _). done.
      - apply elem_of_cons in H as [H | H]; [done |].
        apply elem_of_cons in H as [H | H]; [congruence |].
        apply list_elem_of_fmap in H as (k & Hk & _). done. }
    destruct (trs !! Note.track_id n) as [track |].
    2:{ exists [EvResolve n]. split; [done |].
        intros m Hm. rewrite (Hself [] m); [by split; [left |] |].
        destruct Hm as [Hm | Hm]; [left | right];
          apply elem_of_cons in Hm as [Hm | Hm]; rewrite ?Hm; try (by left);
          by apply elem_of_nil in Hm. }
    destruct (play_note_trace (Track.instrument track) n (emit (EvResolve n) w))
      as [gens Hplay].
    destruct (Instrument.play_note _ _ _) as [[r inst] w1]. simpl in Hplay.
    assert (Hw1 : trace w1 = trace w ++ EvResolve n :: EvPlay n :: map EvGenerate gens).
    { rewrite Hplay. by rewrite <- app_assoc. }
    destruct r as [sound | e].
    2:{ eexists. split; [exact Hw1 |]. intros m Hm.
        rewrite (Hself gens m Hm). by split; [left |]. }
    destruct (np_iadd _ _ _) as [[u | e] h].
    2:{ eexists. split; [exact Hw1 |]. intros m Hm.
        rewrite (Hself gens m Hm). by split; [left |]. }
    match goal with
    | |- context [Timeline.for_notes _ _ _ _ ns ?t ?w'] =>
        destruct (IH t w') as (new & Htr & Hnew)
    end.
    exists ((EvResolve n :: EvPlay n :: map EvGenerate gens) ++ new).
    split.
    + rewrite Htr. simpl. rewrite Hw1. by rewrite <- app_assoc.
    + intros m [Hm | Hm]%visited_app.
      * rewrite (Hself gens m Hm). by split; [left |].
      * apply Hnew in Hm as [? ?]. split; [by right | done].
Qed.
End early_exit.

Lemma sorted_timeline_normal self :
  StronglySorted start_le (Timeline.notes self) →
  (if negb (Timeline.keep_sorted self) then Timeline.sort_notes self else self) = self.
Proof.
  intros Hs. destruct self as [trs ns k sr bpm]. simpl in *.
  destruct k; simpl; [done |].
  unfold Timeline.sort_notes, Timeline.set_notes. simpl.
  by rewrite list_sort_by_start_sorted.
Qed.

(** C2. On a Timeline whose notes are sorted by [start_time], let [n] be a
    note with [start_time >= end_time] ([end_time] being the end of the
    render window, given or defaulted).  Then [generate_audio] returns the
    same outcome, leaves the same tracks and the same world (so the same
    output samples and the same log of calls) as on the Timeline from which
    [n] and all the notes after it are removed; and neither [n] nor any
    note after it is visited: none has its track resolved or is handed to
    [play_note]. *)
Theorem generate_audio_early_exit self st et e w pre n post :
  Timeline.notes self = pre ++ n :: post →
  StronglySorted start_le (Timeline.notes self) →
  Timeline.window_end self et = Ok e →
  (e <= Note.start_time n)%Q →
  let res := Timeline.generate_audio self st et w in
  let res0 := Timeline.generate_audio (Timeline.set_notes pre self) st (Some e) w in
  fst (fst res) = fst (fst res0) ∧
  Timeline.tracks (snd (fst res)) = Timeline.tracks (snd (fst res0)) ∧
  snd res = snd res0 ∧
  ∃ new, trace (snd res) = trace w ++ new ∧ ∀ m, m ∈ n :: post → ¬ visited new m.
Proof.
  intros Hnotes Hs Hwe Hlate. cbv zeta.
  pose proof (sorted_tail_late e pre n post) as Htail.
  rewrite <- Hnotes in Htail. specialize (Htail Hs Hlate).
  assert (Hpre : StronglySorted start_le pre).
  { rewrite Hnotes in Hs. by apply StronglySorted_app_1_l in Hs. }
  unfold Timeline.generate_audio.
  rewrite (sorted_timeline_normal self Hs).
  rewrite (sorted_timeline_normal (Timeline.set_notes pre self)) by done.
  rewrite Hwe. cbn [Timeline.window_end Timeline.sr Timeline.set_notes
                    Timeline.notes Timeline.tracks].
  destruct (np_zeros _ (heap w)) as [[a | ex] h] eqn:Ez.
  2:{ simpl. repeat split; try done. exists []. rewrite app_nil_r. split; [done |].
      intros m _ [H | H]; by apply elem_of_nil in H. }
  rewrite Hnotes, for_notes_app_late by done.
  destruct (for_notes_trace (Timeline.sr self) st e a pre (Timeline.tracks self)
              (set_heap h w)) as (new & Htr & Hnew).
  destruct (Timeline.for_notes _ _ _ _ pre _ _) as [[r trs] w'].
  simpl in *. repeat split; try done.
  exists new. split; [done |]. intros m Hm Hv.
  apply Hnew in Hv as [_ Hlt].
  rewrite Forall_forall in Htail. specialize (Htail m Hm).
  by apply (Qlt_not_le _ _ Hlt).
Qed.

Lemma generate_audio_early_exit_witness :
  let self := ex_timeline_late in
  let n := ex_note 1 (1 # 4) 1 true in
  let post := [Note.mk 7 (PInt 60) 2 (1 # 4) 1 true true] in
  let res := Timeline.generate_audio self 0 (Some 1%Q) ex_world in
  let res0 := Timeline.generate_audio
                (Timeline.set_notes [ex_note 0 (1 # 4) 1 true] self) 0 (Some 1%Q) ex_world in
  fst (fst res) = fst (fst res0) ∧
  Timeline.tracks (snd (fst res)) = Timeline.tracks (snd (fst res0)) ∧
  snd res = snd res0 ∧
  ∃ new, trace (snd res) = trace ex_world ++ new ∧ ∀ m, m ∈ n :: post → ¬ visited new m.
Proof.
  apply (generate_audio_early_exit ex_timeline_late 0 (Some 1%Q) 1 ex_world
           [ex_note 0 (1 # 4) 1 true]).
  - reflexivity.
  - repeat constructor; unfold start_le, Qle; simpl; lia.
  - reflexivity.
  - unfold Qle; simpl; lia.
Defined.

(** ** The samples computed by the render loop *)

Section refinement.
Implicit Types (h : list (list Q)) (trs : gmap Z Track.t) (wt : Wavetable.t)
  (w : World) (out : list Q).

Lemma wavetable_equiv_refl wt : wavetable_equiv wt wt.
Proof. by split. Qed.

Lemma wavetable_equiv_trans wt1 wt2 wt3 :
  wavetable_equiv wt1 wt2 → wavetable_equiv wt2 wt3 → wavetable_equiv wt1 wt3.
Proof.
  intros [Hsr1 Hr1] [Hsr2 Hr2]. split; [congruence |].
  intros k. by rewrite Hr1.
Qed.

Lemma tracks_equiv_refl trs : tracks_equiv trs trs.
Proof.
  intros id. destruct (trs !! id); constructor. apply wavetable_equiv_refl.
Qed.

Lemma tracks_equiv_trans trs1 trs2 trs3 :
  tracks_equiv trs1 trs2 → tracks_equiv trs2 trs3 → tracks_equiv trs1 trs3.
Proof.
  intros H12 H23 id. specialize (H12 id). specialize (H23 id).
  destruct H12 as [t1 t2 H12 |]; inversion H23; subst; constructor.
  by eapply wavetable_equiv_trans.
Qed.

Lemma tracks_allocated_mono N N' trs :
  N ≤ N' → tracks_allocated N trs → tracks_allocated N' trs.
Proof.
  intros Hle Hall id track Hid. destruct (Hall id track Hid) as [Hgen Hcache].
  assert (Hmono : ∀ v, allocated N v → allocated N' v).
  { intros [| a]; simpl; [done | lia]. }
  split; [by apply Hmono |].
  intros k v Hk. apply Hmono. by apply (Hcache k).
Qed.

Lemma insert_track_equiv trs id track i wt1 :
  trs !! id = Some track →
  wavetable_equiv (Instrument.wavetable (Track.instrument track)) wt1 →
  tracks_equiv trs (<[id := Track.mk i (Instrument.mk wt1)]> trs).
Proof.
  intros Hid Heq id'. destruct (decide (id = id')) as [<- | Hne].
  - rewrite lookup_insert_eq, Hid. by constructor.
  - rewrite lookup_insert_ne by done. apply tracks_equiv_refl.
Qed.

Lemma insert_track_allocated N trs id i wt1 :
  tracks_allocated N trs → wavetable_allocated N wt1 →
  tracks_allocated N (<[id := Track.mk i (Instrument.mk wt1)]> trs).
Proof. intros Hall Hwt. by apply map_Forall_insert_2. Qed.

Lemma prefix_insert_ge h0 h b (x : list Q) :
  h0 `prefix_of` h → length h0 ≤ b → h0 `prefix_of` <[b := x]> h.
Proof.
  intros [k ->] Hb. rewrite insert_app_r_alt by done. by eexists.
Qed.

Lemma rendered_equiv h0 h wt wt' n :
  h0 `prefix_of` h → wavetable_allocated (length h0) wt → wavetable_equiv wt wt' →
  rendered h wt' n = rendered h0 wt n.
Proof.
  intros Hpre Hall [Hsr Hres]. unfold rendered. rewrite <- Hres, <- Hsr.
  pose proof (resolve_allocated _ _ (Note.note n) Hall) as Ha.
  destruct (wt_resolve wt (Note.note n)) as [| c]; [done |].
  by rewrite (np_read_prefix h0 h).
Qed.

Lemma mix_equiv h0 h sr st et ns trs trs' : ∀ out,
  h0 `prefix_of` h → tracks_allocated (length h0) trs → tracks_equiv trs trs' →
  mix h sr st et ns trs' out = mix h0 sr st et ns trs out.
Proof.
  induction ns as [| n ns IH]; intros out Hpre Hall Heq; simpl; [done |].
  destruct (Qle_bool (Note.start_time n + Note.duration n) st); [by apply IH |].
  destruct (Qle_bool et (Note.start_time n)); [done |].
  pose proof (Heq (Note.track_id n)) as Hid.
  destruct (trs !! Note.track_id n) as [t |] eqn:E1,
           (trs' !! Note.track_id n) as [t' |] eqn:E2; inversion Hid; subst; [| done].
  rewrite (rendered_equiv h0 h (Instrument.wavetable (Track.instrument t)));
    [| done | by apply (Hall _ _ E1) | done].
  destruct (rendered h0 _ n) as [s | e]; [| done].
  destruct (accumulate _ _ _ _) as [out' | e]; [| done]. by apply IH.
Qed.
End refinement.

Section render_loop.
Implicit Types (h : list (list Q)) (trs : gmap Z Track.t) (w : World) (out : list Q).

(** The loop of [generate_audio] computes [mix]: it touches no buffer
    that existed before the output buffer was allocated, it changes the
    tracks only by filling caches, and it leaves in the output buffer the
    samples [mix] gives (or raises the exception [mix] gives). *)
Lemma for_notes_refines h0 sr st et b L ns : ∀ trs w out,
  h0 `prefix_of` heap w →
  tracks_allocated (length h0) trs →
  length h0 ≤ b → heap w !! b = Some out → length out = L →
  h0 `prefix_of` heap (snd (Timeline.for_notes sr st et (NdArray b 0 L) ns trs w)) ∧
  tracks_allocated (length h0)
    (snd (fst (Timeline.for_notes sr st et (NdArray b 0 L) ns trs w))) ∧
  tracks_equiv trs (snd (fst (Timeline.for_notes sr st et (NdArray b 0 L) ns trs w))) ∧
  ∃ out',
    heap (snd (Timeline.for_notes sr st et (NdArray b 0 L) ns trs w)) !! b = Some out' ∧
    length out' = L ∧
    match mix h0 sr st et ns trs out with
    | Ok o => fst (fst (Timeline.for_notes sr st et (NdArray b 0 L) ns trs w)) = Ok tt
              ∧ out' = o
    | Raise e => fst (fst (Timeline.for_notes sr st et (NdArray b 0 L) ns trs w)) = Raise e
    end.
Proof.
  induction ns as [| n ns IH]; intros trs w out Hpre Hall Hb Hout HL;
    cbn [Timeline.for_notes mix].
  { split; [done |]. split; [done |]. split; [apply tracks_equiv_refl |].
    by exists out. }
  destruct (Qle_bool (Note.start_time n + Note.duration n) st); [by apply IH |].
  destruct (Qle_bool et (Note.start_time n)).
  { split; [done |]. split; [done |]. split; [apply tracks_equiv_refl |].
    by exists out. }
  destruct (trs !! Note.track_id n) as [track |] eqn:Eid.
  2:{ split; [done |]. split; [done |]. split; [apply tracks_equiv_refl |].
      by exists out. }
  rewrite play_note_eq. cbv zeta.
  set (wt := Instrument.wavetable (Track.instrument track)).
  set (g := Wavetable.__getitem__ wt (Note.note n) (emit (EvPlay n) (emit (EvResolve n) w))).
  pose proof (getitem_fields wt (Note.note n) (emit (EvPlay n) (emit (EvResolve n) w)))
    as (_ & Hsr & Hgh).
  fold g in Hsr, Hgh. cbn [heap emit] in Hgh.
  assert (Hwt : wavetable_allocated (length h0) wt) by apply (Hall _ _ Eid).
  assert (Hwt1 : wavetable_allocated (length h0) (snd (fst g))) by (by apply getitem_allocated).
  assert (Heq1 : wavetable_equiv wt (snd (fst g))).
  { split; [done |]. intros k. symmetry. apply getitem_resolve_after. }
  set (trs1 := <[Note.track_id n := Track.mk (Track.id track) (Instrument.mk (snd (fst g)))]> trs).
  assert (Hall1 : tracks_allocated (length h0) trs1) by (by apply insert_track_allocated).
  assert (Htrs1 : tracks_equiv trs trs1) by (by apply (insert_track_equiv trs _ track)).
  pose proof (resolve_allocated _ _ (Note.note n) Hwt) as Hc.
  unfold rendered. fold wt.
  destruct (wt_resolve wt (Note.note n)) as [| c].
  { cbn [fst snd]. rewrite Hgh. split; [done |]. split; [done |]. split; [done |].
    by exists out. }
  cbn [heap emit]. simpl in Hc.
  rewrite (np_read_prefix h0 (heap w)) by done.
  set (s := map (λ x, x * Note.velocity n)%Q (np_read h0 c)).
  destruct (play_note_sound (heap w) s n (Wavetable.sr wt)) as (Hsb & Hsrd & Hslen).
  cbv zeta in Hsb, Hsrd, Hslen.
  set (sound := if Note.time_wise n then _ else _) in *.
  assert (Hsamples :
            np_read (heap w ++ [s]) sound = scaled_and_trimmed n (Wavetable.sr wt) (np_read h0 c)).
  { rewrite Hsrd. unfold scaled_and_trimmed. by fold s. }
  rewrite <- Hsrd, Hsamples in Hslen.
  set (samples := scaled_and_trimmed n (Wavetable.sr wt) (np_read h0 c)) in *.
  cbn [set_heap heap].
  assert (Hb' : b < length (heap w)) by (by eapply lookup_lt_Some).
  rewrite (np_iadd_whole b L out sound (heap w ++ [s]));
    [| by apply lookup_app_l_Some | done | lia | by rewrite Hsamples].
  rewrite Hsamples, Hslen.
  destruct (accumulate out _ _ samples) as [out1 | e] eqn:Eacc.
  2:{ cbn [fst snd heap set_heap]. split; [by apply prefix_app_r |].
      split; [done |]. split; [done |]. exists out.
      split; [by apply lookup_app_l_Some | done]. }
  pose proof (accumulate_length _ _ _ _ _ Eacc) as Hlen1.
  destruct (IH trs1 (set_heap (<[b := out1]> (heap w ++ [s])) (set_heap (heap w ++ [s]) (snd g)))
              out1) as (Hp & Ha & He & out' & Ho & Hl & Hm).
  - cbn [heap set_heap]. apply prefix_insert_ge; [by apply prefix_app_r | done].
  - done.
  - done.
  - cbn [heap set_heap]. apply list_lookup_insert_eq. rewrite length_app. lia.
  - lia.
  - split; [done |]. split; [done |]. split; [by eapply tracks_equiv_trans |].
    exists out'. split; [done |]. split; [done |].
    rewrite <- (mix_equiv h0 h0 sr st et ns trs trs1); done.
Qed.
End render_loop.

Section render_call.
Implicit Types (self : Timeline.t) (w : World).

Lemma after_sort_fields self :
  Timeline.tracks (after_sort self) = Timeline.tracks self ∧
  Timeline.keep_sorted (after_sort self) = Timeline.keep_sorted self ∧
  Timeline.sr (after_sort self) = Timeline.sr self.
Proof. unfold after_sort. by destruct self as [? ? [] ? ?]. Qed.

Lemma after_sort_sorted self :
  Timeline.keep_sorted self = false →
  StronglySorted start_le (Timeline.notes (after_sort self)).
Proof.
  intros Hk. unfold after_sort. rewrite Hk. simpl. apply list_sort_by_start_is_sorted.
Qed.

(** Sorting again changes nothing. *)
Lemma after_sort_idem self self' :
  Timeline.notes self' = Timeline.notes (after_sort self) →
  Timeline.keep_sorted self' = Timeline.keep_sorted self →
  Timeline.notes (after_sort self') = Timeline.notes (after_sort self).
Proof.
  intros Hn Hk. destruct (Timeline.keep_sorted self) eqn:E.
  - unfold after_sort in *. by rewrite Hk, E in *.
  - pose proof (after_sort_sorted self E) as Hs.
    unfold after_sort at 1. rewrite Hk. simpl.
    rewrite Hn. by apply list_sort_by_start_sorted.
Qed.

(** The buffer [generate_audio] returns is the one it allocated:
    [int((end_time - start_time) * sr)] samples, in a fresh cell. *)
Lemma generate_audio_buffer self st et w a :
  fst (fst (Timeline.generate_audio self st et w)) = Ok a →
  ∃ e,
    Timeline.window_end (after_sort self) et = Ok e ∧
    (0 ≤ py_int ((e - st) * inject_Z (Timeline.sr self)))%Z ∧
    a = NdArray (length (heap w)) 0
          (Z.to_nat (py_int ((e - st) * inject_Z (Timeline.sr self)))).
Proof.
  unfold Timeline.generate_audio. fold (after_sort self).
  destruct (after_sort_fields self) as (_ & _ & Hsr). rewrite Hsr.
  destruct (Timeline.window_end (after_sort self) et) as [e | ex]; [| done].
  unfold np_zeros, np_alloc.
  destruct (py_int ((e - st) * inject_Z (Timeline.sr self)) <? 0)%Z eqn:Eneg; [done |].
  destruct (Timeline.for_notes _ _ _ _ _ _ _) as [[[u | ex] trs] w']; [| done].
  simpl. intros H. inversion H; subst a. exists e. split; [done |].
  split; [lia |]. by rewrite length_replicate.
Qed.

(** [generate_audio] returns the samples [render] gives; it touches no
    buffer that existed before the call and changes the tracks only by
    filling caches. *)
Lemma generate_audio_refines self st et w :
  tracks_allocated (length (heap w)) (Timeline.tracks self) →
  heap w `prefix_of` heap (snd (Timeline.generate_audio self st et w)) ∧
  tracks_allocated (length (heap w))
    (Timeline.tracks (snd (fst (Timeline.generate_audio self st et w)))) ∧
  tracks_equiv (Timeline.tracks self)
    (Timeline.tracks (snd (fst (Timeline.generate_audio self st et w)))) ∧
  Timeline.notes (snd (fst (Timeline.generate_audio self st et w)))
  = Timeline.notes (after_sort self) ∧
  Timeline.keep_sorted (snd (fst (Timeline.generate_audio self st et w)))
  = Timeline.keep_sorted self ∧
  Timeline.sr (snd (fst (Timeline.generate_audio self st et w))) = Timeline.sr self ∧
  output (fst (fst (Timeline.generate_audio self st et w)))
         (snd (Timeline.generate_audio self st et w))
  = render (heap w) self st et ∧
  ∀ a, fst (fst (Timeline.generate_audio self st et w)) = Ok a →
       arr_base a < length (heap (snd (Timeline.generate_audio self st et w))).
Proof.
  intros Hall. unfold Timeline.generate_audio, render. fold (after_sort self).
  destruct (after_sort_fields self) as (Htr & Hk & Hsr).
  destruct (Timeline.window_end (after_sort self) et) as [e | ex].
  2:{ cbn [fst snd]. rewrite Htr, Hk, Hsr.
      split_and!; try done. apply tracks_equiv_refl. }
  rewrite Hsr, Htr. unfold np_zeros, np_alloc.
  set (len := py_int ((e - st) * inject_Z (Timeline.sr self))).
  destruct (len <? 0)%Z eqn:Eneg.
  { cbn [fst snd]. rewrite Htr, Hk, Hsr.
    split_and!; try done. apply tracks_equiv_refl. }
  rewrite length_replicate.
  destruct (for_notes_refines (heap w) (Timeline.sr self) st e (length (heap w))
              (Z.to_nat len) (Timeline.notes (after_sort self)) (Timeline.tracks self)
              (set_heap (heap w ++ [replicate (Z.to_nat len) 0%Q]) w)
              (replicate (Z.to_nat len) 0%Q))
    as (Hp & Ha & He & out' & Ho & Hl & Hm).
  - simpl. by apply prefix_app_r.
  - done.
  - done.
  - simpl. apply list_lookup_middle. done.
  - apply length_replicate.
  - destruct (Timeline.for_notes _ _ _ _ _ _ _) as [[r trs] w'].
    cbn [fst snd] in *. cbn [Timeline.set_tracks Timeline.tracks Timeline.notes
                             Timeline.keep_sorted Timeline.sr].
    rewrite Hk, Hsr. split_and!; try done.
    + destruct (mix _ _ _ _ _ _ _) as [o | ex].
      * destruct Hm as [-> ->]. simpl. unfold np_read. simpl. rewrite Ho. simpl.
        rewrite drop_0, take_ge; [done | lia].
      * by rewrite Hm.
    + intros a Hr. destruct r; inversion Hr; subst a. simpl.
      by eapply lookup_lt_Some.
Qed.
End render_call.

Lemma window_end_notes self self' et :
  Timeline.notes self' = Timeline.notes self →
  Timeline.window_end self' et = Timeline.window_end self et.
Proof. intros H. unfold Timeline.window_end. by rewrite H. Qed.

(** [render] depends on the Timeline only through what its wavetables
    resolve to, and on the heap only through the buffers they refer to. *)
Lemma render_equiv h0 h self self' st et :
  h0 `prefix_of` h →
  tracks_allocated (length h0) (Timeline.tracks self) →
  tracks_equiv (Timeline.tracks self) (Timeline.tracks self') →
  Timeline.notes self' = Timeline.notes (after_sort self) →
  Timeline.keep_sorted self' = Timeline.keep_sorted self →
  Timeline.sr self' = Timeline.sr self →
  render h self' st et = render h0 self st et.
Proof.
  intros Hpre Hall Heq Hn Hk Hsr. unfold render.
  destruct (after_sort_fields self) as (Htr1 & _ & Hsr1).
  destruct (after_sort_fields self') as (Htr2 & _ & Hsr2).
  pose proof (after_sort_idem self self' Hn Hk) as Hnotes.
  rewrite (window_end_notes (after_sort self) (after_sort self') et Hnotes).
  destruct (Timeline.window_end (after_sort self) et) as [e | ex]; [| done].
  rewrite Hsr1, Hsr2, Hsr, Htr1, Htr2, Hnotes.
  destruct (_ <? 0)%Z; [done |]. by apply mix_equiv.
Qed.

(** ** C9: rendering twice *)

(** C9. On a Timeline all of whose buffers exist (no reference from a
    cache or a generator dangles), calling [generate_audio] twice with the
    same arguments, the second time in the state the first call left (caches
    filled, notes sorted), yields the same outcome: the same exception, or
    buffers holding exactly the same samples; and the buffer returned by the
    first call still holds them after the second call. *)
Theorem generate_audio_idempotent self st et w :
  tracks_allocated (length (heap w)) (Timeline.tracks self) →
  let res1 := Timeline.generate_audio self st et w in
  let res2 := Timeline.generate_audio (snd (fst res1)) st et (snd res1) in
  output (fst (fst res2)) (snd res2) = output (fst (fst res1)) (snd res1) ∧
  output (fst (fst res1)) (snd res2) = output (fst (fst res1)) (snd res1).
Proof.
  intros Hall. cbv zeta.
  destruct (generate_audio_refines self st et w Hall)
    as (Hp1 & Ha1 & He1 & Hn1 & Hk1 & Hsr1 & Ho1 & Hb1).
  set (res1 := Timeline.generate_audio self st et w) in *.
  assert (Ha1' : tracks_allocated (length (heap (snd res1))) (Timeline.tracks (snd (fst res1)))).
  { eapply tracks_allocated_mono; [| exact Ha1]. by apply prefix_length. }
  destruct (generate_audio_refines (snd (fst res1)) st et (snd res1) Ha1')
    as (Hp2 & _ & _ & _ & _ & _ & Ho2 & _).
  split.
  - rewrite Ho2, Ho1. by apply render_equiv.
  - destruct (fst (fst res1)) as [a | ex]; [| done]. simpl. f_equal.
    apply np_read_prefix; [done |]. by apply Hb1.
Qed.

Lemma generate_audio_idempotent_witness :
  let res1 := Timeline.generate_audio ex_timeline_unsorted 0 None ex_world in
  let res2 := Timeline.generate_audio (snd (fst res1)) 0 None (snd res1) in
  output (fst (fst res2)) (snd res2) = output (fst (fst res1)) (snd res1) ∧
  output (fst (fst res1)) (snd res2) = output (fst (fst res1)) (snd res1).
Proof.
  apply (generate_audio_idempotent ex_timeline_unsorted 0 None ex_world).
  apply map_Forall_insert_2; [| apply map_Forall_empty].
  split; [simpl; lia | apply map_Forall_empty].
Defined.

(** ** C6: sample counts and offsets *)

Lemma accumulate_in_range out start s :
  (0 ≤ start)%Z → (start + Z.of_nat (length s) ≤ Z.of_nat (length out))%Z →
  accumulate out start (start + Z.of_nat (length s)) s
  = Ok (added_at (Z.to_nat start) s out).
Proof.
  intros H0 Hfit. unfold accumulate, added_at, slice_index.
  destruct (start <? 0)%Z eqn:E1; [lia |].
  destruct (start + Z.of_nat (length s) <? 0)%Z eqn:E2; [lia |].
  rewrite !Z.min_l by lia.
  replace (Z.to_nat (start + Z.of_nat (length s)) - Z.to_nat start) with (length s) by lia.
  by rewrite decide_True.
Qed.

(** One turn of the loop for a note that is rendered and whose write lies
    inside the output buffer: its samples are added at offset
    [int((note.start_time - start_time) * sr)]. *)
Lemma for_notes_step_in_range sr st et b L n rest trs w out track sound inst w1 :
  heap w !! b = Some out → length out = L →
  Qle_bool (Note.start_time n + Note.duration n) st = false →
  Qle_bool et (Note.start_time n) = false →
  trs !! Note.track_id n = Some track →
  Instrument.play_note (Track.instrument track) n (emit (EvResolve n) w)
  = (Ok sound, inst, w1) →
  (0 ≤ py_int ((Note.start_time n - st) * inject_Z sr))%Z →
  (py_int ((Note.start_time n - st) * inject_Z sr) + Z.of_nat (arr_len sound)
   ≤ Z.of_nat L)%Z →
  Timeline.for_notes sr st et (NdArray b 0 L) (n :: rest) trs w
  = Timeline.for_notes sr st et (NdArray b 0 L) rest
      (<[Note.track_id n := Track.mk (Track.id track) inst]> trs)
      (set_heap
         (<[b := added_at (Z.to_nat (py_int ((Note.start_time n - st) * inject_Z sr)))
                          (np_read (heap w1) sound) out]> (heap w1))
         w1).
Proof.
  intros Hout HL Hg1 Hg2 Hid Hplay H0 Hfit.
  cbn [Timeline.for_notes]. rewrite Hg1, Hg2, Hid, Hplay. cbv beta iota zeta.
  rewrite play_note_eq in Hplay. cbv zeta in Hplay.
  destruct (wt_resolve _ _) as [| c]; [done |].
  cbn [heap emit] in Hplay.
  set (s := map (λ x, x * Note.velocity n)%Q (np_read (heap w) c)) in *.
  destruct (play_note_sound (heap w) s n
              (Wavetable.sr (Instrument.wavetable (Track.instrument track))))
    as (Hsb & Hsrd & Hslen).
  cbv zeta in Hsb, Hsrd, Hslen. rewrite <- Hsrd in Hslen.
  injection Hplay as Hsound Hinst Hw1. rewrite Hsound in Hsb, Hslen.
  assert (Hh1 : heap w1 = heap w ++ [s]) by (by rewrite <- Hw1).
  rewrite Hsound in Hsrd. rewrite <- Hh1 in Hslen.
  assert (Hb' : b < length (heap w)) by (by eapply lookup_lt_Some).
  rewrite (np_iadd_whole b L out sound (heap w1));
    [| rewrite Hh1; by apply lookup_app_l_Some | done | lia | done].
  rewrite Hslen at 1. rewrite accumulate_in_range; [done | done |].
  rewrite <- Hslen. lia.
Qed.

(** C6 (as amended). [generate_audio] allocates the output buffer with
    exactly [int((end_time - start_time) * sr)] samples, [int] truncating
    toward zero (a successful call implies that this number is not
    negative); and a note that is rendered, and whose write lies inside
    the output buffer, has its samples added at offset
    [int((note.start_time - start_time) * sr)]. *)
Theorem generate_audio_truncates :
  (∀ self st et w a,
     fst (fst (Timeline.generate_audio self st et w)) = Ok a →
     ∃ e,
       Timeline.window_end (after_sort self) et = Ok e ∧
       (0 ≤ py_int ((e - st) * inject_Z (Timeline.sr self)))%Z ∧
       a = NdArray (length (heap w)) 0
             (Z.to_nat (py_int ((e - st) * inject_Z (Timeline.sr self))))) ∧
  (∀ sr st et b L n rest trs w out track sound inst w1,
     heap w !! b = Some out → length out = L →
     Qle_bool (Note.start_time n + Note.duration n) st = false →
     Qle_bool et (Note.start_time n) = false →
     trs !! Note.track_id n = Some track →
     Instrument.play_note (Track.instrument track) n (emit (EvResolve n) w)
     = (Ok sound, inst, w1) →
     (0 ≤ py_int ((Note.start_time n - st) * inject_Z sr))%Z →
     (py_int ((Note.start_time n - st) * inject_Z sr) + Z.of_nat (arr_len sound)
      ≤ Z.of_nat L)%Z →
     Timeline.for_notes sr st et (NdArray b 0 L) (n :: rest) trs w
     = Timeline.for_notes sr st et (NdArray b 0 L) rest
         (<[Note.track_id n := Track.mk (Track.id track) inst]> trs)
         (set_heap
            (<[b := added_at (Z.to_nat (py_int ((Note.start_time n - st) * inject_Z sr)))
                             (np_read (heap w1) sound) out]> (heap w1))
            w1)).
Proof.
  split.
  - intros self st et w a H. by apply generate_audio_buffer.
  - intros. by eapply for_notes_step_in_range.
Qed.

(** C6 as stated fails: with [sr = 4], the window [0, 23/16] has 5.75
    sample periods and the note starts at 1.75 sample periods; the buffer
    gets 5 samples and the note lands at index 1, while the nearest
    integers are 6 and 2. *)
Lemma generate_audio_not_rounded :
  let res := Timeline.generate_audio ex_timeline_frac 0 (Some (23 # 16)) ex_world in
  ∃ a,
    fst (fst res) = Ok a ∧
    arr_len a = 5 ∧
    ¬ nearest_integer (((23 # 16) - 0) * inject_Z 4) (Z.of_nat (arr_len a)) ∧
    np_read (heap (snd res)) a = [0; 1; 0; 0; 0]%Q ∧
    py_int (((7 # 16) - 0) * inject_Z 4) = 1%Z ∧
    ¬ nearest_integer (((7 # 16) - 0) * inject_Z 4) 1.
Proof.
  cbv zeta. eexists. split; [vm_compute; reflexivity |].
  split; [reflexivity |].
  split; [| split; [vm_compute; reflexivity | split; [reflexivity |]]].
  - unfold nearest_integer. intros H. apply Qle_bool_iff in H.
    vm_compute in H. discriminate.
  - unfold nearest_integer. intros H. apply Qle_bool_iff in H.
    vm_compute in H. discriminate.
Qed.

Lemma generate_audio_truncates_witness :
  let n := ex_note (7 # 16) (1 # 4) 1 true in
  let w := set_heap [replicate 8 1%Q; replicate 5 0%Q] ex_world in
  let played := Instrument.play_note ex_instrument n (emit (EvResolve n) w) in
  (∃ e,
     Timeline.window_end (after_sort ex_timeline_frac) (Some (23 # 16)) = Ok e ∧
     (0 ≤ py_int ((e - 0) * inject_Z (Timeline.sr ex_timeline_frac)))%Z ∧
     NdArray 1 0 5
     = NdArray (length (heap ex_world)) 0
         (Z.to_nat (py_int ((e - 0) * inject_Z (Timeline.sr ex_timeline_frac))))) ∧
  Timeline.for_notes 4 0 (23 # 16) (NdArray 1 0 5) [n]
    (Timeline.tracks ex_timeline_frac) w
  = Timeline.for_notes 4 0 (23 # 16) (NdArray 1 0 5) []
      (<[Note.track_id n := Track.mk (Track.id (ex_track 0)) (snd (fst played))]>
         (Timeline.tracks ex_timeline_frac))
      (set_heap
         (<[1 := added_at (Z.to_nat (py_int ((Note.start_time n - 0) * inject_Z 4)))
                          (np_read (heap (snd played)) (NdArray 2 0 1))
                          (replicate 5 0%Q)]> (heap (snd played)))
         (snd played)).
Proof.
  cbv zeta. split.
  - apply (proj1 generate_audio_truncates ex_timeline_frac 0%Q (Some (23 # 16)%Q) ex_world).
    vm_compute. reflexivity.
  - apply (proj2 generate_audio_truncates 4%Z 0%Q (23 # 16)%Q 1 5
             (ex_note (7 # 16) (1 # 4) 1 true) [] (Timeline.tracks ex_timeline_frac)
             (set_heap [replicate 8 1%Q; replicate 5 0%Q] ex_world)
             (replicate 5 0%Q) (ex_track 0) (NdArray 2 0 1)).
    + reflexivity.
    + reflexivity.
    + reflexivity.
    + reflexivity.
    + reflexivity.
    + vm_compute. reflexivity.
    + vm_compute. discriminate.
    + vm_compute. discriminate.
Defined.

(** * Further properties of the code *)

(** ** Tracks: [populate_tracks], the constructor, [add_track],
    [from_generators] *)

Section tracks.
Implicit Types (self : Timeline.t) (trs : list Track.t).

Lemma populate_tracks_cons_fresh self track trs :
  Track.id track ∉ dom (Timeline.tracks self) →
  Timeline.populate_tracks self (track :: trs)
  = Timeline.populate_tracks
      (Timeline.set_tracks (<[Track.id track := track]> (Timeline.tracks self)) self) trs.
Proof. intros H. simpl. by rewrite decide_False. Qed.

Lemma populate_tracks_Ok_iff trs : ∀ self,
  fst (Timeline.populate_tracks self trs) = Ok tt ↔
  NoDup (map Track.id trs) ∧
  Forall (λ t, Track.id t ∉ dom (Timeline.tracks self)) trs.
Proof.
  induction trs as [| track trs IH]; intros self.
  - simpl. split; [intros _; split; constructor | done].
  - destruct (decide (Track.id track ∈ dom (Timeline.tracks self))) as [Hin | Hout].
    + rewrite populate_tracks_collision by done. simpl. split; [done |].
      intros [_ Hall]. by apply Forall_cons in Hall as [? _].
    + rewrite populate_tracks_cons_fresh by done. rewrite IH. simpl.
      rewrite NoDup_cons, Forall_cons. split.
      * intros [Hnd Hall]. split; [split; [| done] | split; [done |]].
        -- intros Hdup. apply list_elem_of_fmap in Hdup as (t & Hid & Ht).
           rewrite Forall_forall in Hall. apply (Hall t Ht).
           rewrite dom_insert_L, <- Hid. apply elem_of_union. left.
           by apply elem_of_singleton.
        -- eapply Forall_impl; [exact Hall |]. intros t Ht.
           rewrite dom_insert_L in Ht. by apply not_elem_of_union in Ht as [_ ?].
      * intros [[Hfresh Hnd] [_ Hall]]. split; [done |].
        apply Forall_forall. intros t Ht. rewrite dom_insert_L.
        rewrite Forall_forall in Hall. specialize (Hall t Ht).
        assert (Track.id t ≠ Track.id track).
        { intros Heq. apply Hfresh. rewrite <- Heq. apply list_elem_of_fmap. eauto. }
        apply not_elem_of_union. split; [by apply not_elem_of_singleton | done].
Qed.

Lemma populate_tracks_stored trs : ∀ self,
  NoDup (map Track.id trs) →
  Forall (λ t, Track.id t ∉ dom (Timeline.tracks self)) trs →
  (∀ t, t ∈ trs →
     Timeline.tracks (snd (Timeline.populate_tracks self trs)) !! Track.id t = Some t) ∧
  (∀ i, i ∉ map Track.id trs →
     Timeline.tracks (snd (Timeline.populate_tracks self trs)) !! i
     = Timeline.tracks self !! i).
Proof.
  induction trs as [| track trs IH]; intros self Hnd Hall.
  - simpl. split; [| done]. intros t Ht. by apply elem_of_nil in Ht.
  - apply Forall_cons in Hall as [Hfresh Hall]. simpl in Hnd.
    apply NoDup_cons in Hnd as [Hnew Hnd].
    rewrite populate_tracks_cons_fresh by done.
    set (self1 := Timeline.set_tracks _ self).
    destruct (IH self1 Hnd) as [Hin Hout].
    { apply Forall_forall. intros t Ht. simpl. rewrite dom_insert_L.
      rewrite Forall_forall in Hall. specialize (Hall t Ht).
      assert (Track.id t ≠ Track.id track).
      { intros Heq. apply Hnew. rewrite <- Heq. apply list_elem_of_fmap. eauto. }
      apply not_elem_of_union. split; [by apply not_elem_of_singleton | done]. }
    split.
    + intros t [-> | Ht]%elem_of_cons; [| by apply Hin].
      rewrite Hout by done. simpl. apply lookup_insert_eq.
    + intros i Hi. simpl in Hi. apply not_elem_of_cons in Hi as [Hne Hi].
      rewrite Hout by done. simpl. by rewrite lookup_insert_ne.
Qed.
End tracks.

(** X1. [populate_tracks] on tracks whose ids are pairwise distinct and
    not yet in use succeeds; afterwards each of them is stored under its
    own id, every other id maps to what it mapped to before, and the notes
    are untouched. *)
Theorem populate_tracks_stores self trs :
  NoDup (map Track.id trs) →
  Forall (λ t, Track.id t ∉ dom (Timeline.tracks self)) trs →
  fst (Timeline.populate_tracks self trs) = Ok tt ∧
  (∀ t, t ∈ trs →
     Timeline.tracks (snd (Timeline.populate_tracks self trs)) !! Track.id t = Some t) ∧
  (∀ i, i ∉ map Track.id trs →
     Timeline.tracks (snd (Timeline.populate_tracks self trs)) !! i
     = Timeline.tracks self !! i) ∧
  Timeline.notes (snd (Timeline.populate_tracks self trs)) = Timeline.notes self.
Proof.
  intros Hnd Hall. split; [by apply populate_tracks_Ok_iff |].
  destruct (populate_tracks_stored trs self Hnd Hall) as [Hin Hout].
  split; [done |]. split; [done |].
  destruct (Timeline.populate_tracks self trs) as [r self'] eqn:E.
  by apply populate_tracks_fields in E as (? & _).
Qed.

Lemma populate_tracks_stores_witness :
  fst (Timeline.populate_tracks ex_timeline_5 [ex_track 0; ex_track 1]) = Ok tt ∧
  (∀ t, t ∈ [ex_track 0; ex_track 1] →
     Timeline.tracks (snd (Timeline.populate_tracks ex_timeline_5 [ex_track 0; ex_track 1]))
       !! Track.id t = Some t) ∧
  (∀ i, i ∉ map Track.id [ex_track 0; ex_track 1] →
     Timeline.tracks (snd (Timeline.populate_tracks ex_timeline_5 [ex_track 0; ex_track 1]))
       !! i = Timeline.tracks ex_timeline_5 !! i) ∧
  Timeline.notes (snd (Timeline.populate_tracks ex_timeline_5 [ex_track 0; ex_track 1]))
  = Timeline.notes ex_timeline_5.
Proof.
  apply (populate_tracks_stores ex_timeline_5 [ex_track 0; ex_track 1]).
  - simpl. repeat constructor; rewrite ?elem_of_cons, ?elem_of_nil; intros H;
      repeat destruct H as [H | H]; done.
  - repeat constructor; simpl; rewrite dom_insert_L, dom_empty_L,
      elem_of_union, elem_of_singleton, elem_of_empty; intros [H | H]; done.
Defined.

(** X2. [populate_tracks] stops at the first track whose id is in use
    (by an older track or by an earlier track of the same call): it raises
    [Warning] for that id, in the state in which the tracks before it are
    stored; the colliding track and everything after it are not. *)
Theorem populate_tracks_first_collision self good bad rest :
  fst (Timeline.populate_tracks self good) = Ok tt →
  Track.id bad ∈ dom (Timeline.tracks (snd (Timeline.populate_tracks self good))) →
  Timeline.populate_tracks self (good ++ bad :: rest)
  = (Raise (Warning_collision (Track.id bad)),
     snd (Timeline.populate_tracks self good)).
Proof.
  revert self. induction good as [| track good IH]; intros self Hok Hin.
  - simpl in *. by rewrite decide_True.
  - destruct (decide (Track.id track ∈ dom (Timeline.tracks self))) as [Hc | Hf].
    + rewrite populate_tracks_collision in Hok by done. done.
    + rewrite populate_tracks_cons_fresh in Hok, Hin |- * by done.
      cbn [app]. rewrite populate_tracks_cons_fresh by done. by apply IH.
Qed.

Lemma populate_tracks_first_collision_witness :
  Timeline.populate_tracks ex_timeline_5 ([ex_track 0] ++ ex_track 0 :: [ex_track 1])
  = (Raise (Warning_collision (Track.id (ex_track 0))),
     snd (Timeline.populate_tracks ex_timeline_5 [ex_track 0])).
Proof.
  apply (populate_tracks_first_collision ex_timeline_5 [ex_track 0] (ex_track 0) [ex_track 1]).
  - reflexivity.
  - rewrite populate_tracks_cons_fresh.
    + simpl. rewrite dom_insert_L. apply elem_of_union. left. by apply elem_of_singleton.
    + simpl. rewrite dom_insert_L, dom_empty_L. apply not_elem_of_union.
      split; [by apply not_elem_of_singleton | apply not_elem_of_empty].
Defined.

(** X3. The constructor [Timeline(tracks, notes, ...)] succeeds exactly
    when the ids of the given tracks are pairwise distinct; it then holds
    each track under its id and nothing else. *)
Theorem init_succeeds_iff trs ns keep_sorted sr bpm :
  ((∃ self, Timeline.init trs ns keep_sorted sr bpm = Ok self) ↔
   NoDup (map Track.id trs)) ∧
  ∀ self, Timeline.init trs ns keep_sorted sr bpm = Ok self →
    (∀ t, t ∈ trs → Timeline.tracks self !! Track.id t = Some t) ∧
    (∀ i, i ∉ map Track.id trs → Timeline.tracks self !! i = None).
Proof.
  unfold Timeline.init.
  set (self0 := Timeline.mk ∅ [] keep_sorted sr bpm).
  pose proof (populate_tracks_Ok_iff trs self0) as Hiff.
  assert (Hfresh : Forall (λ t, Track.id t ∉ dom (Timeline.tracks self0)) trs).
  { apply Forall_forall. intros t _. simpl. rewrite dom_empty_L. apply not_elem_of_empty. }
  split; [split |].
  - intros [self Hs]. apply Hiff.
    destruct (Timeline.populate_tracks self0 trs) as [[[] | e] self1]; done.
  - intros Hnd. destruct Hiff as [_ Hiff]. specialize (Hiff (conj Hnd Hfresh)).
    destruct (Timeline.populate_tracks self0 trs) as [[u | e] self1]; [eauto | done].
  - intros self Hs.
    assert (Hok : fst (Timeline.populate_tracks self0 trs) = Ok tt).
    { destruct (Timeline.populate_tracks self0 trs) as [[[] | e] self1]; done. }
    apply Hiff in Hok as [Hnd _].
    destruct (populate_tracks_stored trs self0 Hnd Hfresh) as [Hin Hout].
    destruct (Timeline.populate_tracks self0 trs) as [[u | e] self1]; [| done].
    inversion Hs; subst self. simpl in Hin, Hout.
    assert (Htr : Timeline.tracks (Timeline.populate_notes self1 ns) = Timeline.tracks self1).
    { unfold Timeline.populate_notes. by destruct (Timeline.keep_sorted self1). }
    rewrite Htr. split; [done |]. intros i Hi. rewrite Hout by done. apply lookup_empty.
Qed.

Section add_track.
Implicit Types (self : Timeline.t).

Lemma free_id_fresh (trs : gmap Z Track.t) t_id :
  t_id ∉ dom trs → Timeline.free_id trs t_id = t_id.
Proof.
  intros Hfresh. destruct (free_id_spec trs t_id) as (Hle & _ & Hbelow).
  destruct (decide (Timeline.free_id trs t_id = t_id)) as [| Hne]; [done |].
  exfalso. apply Hfresh. apply Hbelow. lia.
Qed.

Lemma add_track_unfold self instrument name :
  Timeline.add_track self instrument name
  = (Timeline.free_id (Timeline.tracks self) (Z.of_nat (size (Timeline.tracks self))),
     Timeline.set_tracks
       (<[Timeline.free_id (Timeline.tracks self) (Z.of_nat (size (Timeline.tracks self)))
          := Track.mk
               (Timeline.free_id (Timeline.tracks self)
                  (Z.of_nat (size (Timeline.tracks self))))
               match instrument with
               | inl i => i
               | inr g => Instrument.mk (Wavetable.init g 44100)
               end]> (Timeline.tracks self))
       self).
Proof. done. Qed.

(** A Timeline whose track ids are exactly 0, ..., size - 1. *)
Lemma contiguous_add self instrument name :
  (∀ j, j ∈ dom (Timeline.tracks self)
        ↔ (0 ≤ j < Z.of_nat (size (Timeline.tracks self)))%Z) →
  fst (Timeline.add_track self instrument name) = Z.of_nat (size (Timeline.tracks self)) ∧
  size (Timeline.tracks (snd (Timeline.add_track self instrument name)))
  = S (size (Timeline.tracks self)) ∧
  ∀ j, j ∈ dom (Timeline.tracks (snd (Timeline.add_track self instrument name)))
       ↔ (0 ≤ j < Z.of_nat (S (size (Timeline.tracks self))))%Z.
Proof.
  intros Hcont. rewrite add_track_unfold.
  assert (Hfresh : Z.of_nat (size (Timeline.tracks self)) ∉ dom (Timeline.tracks self)).
  { intros Hin. apply Hcont in Hin. lia. }
  rewrite (free_id_fresh _ _ Hfresh). cbn [fst snd Timeline.set_tracks Timeline.tracks].
  split; [done |]. split.
  - apply map_size_insert_None. by apply not_elem_of_dom.
  - intros j. rewrite dom_insert_L, elem_of_union, elem_of_singleton, Hcont. lia.
Qed.

Lemma add_track_effect self instrument name :
  (∀ i track, Timeline.tracks self !! i = Some track →
     Timeline.tracks (snd (Timeline.add_track self instrument name)) !! i = Some track) ∧
  Timeline.tracks (snd (Timeline.add_track self instrument name))
    !! fst (Timeline.add_track self instrument name)
  = Some (Track.mk (fst (Timeline.add_track self instrument name))
            match instrument with
            | inl i => i
            | inr g => Instrument.mk (Wavetable.init g 44100)
            end) ∧
  Timeline.notes (snd (Timeline.add_track self instrument name)) = Timeline.notes self ∧
  Timeline.keep_sorted (snd (Timeline.add_track self instrument name))
  = Timeline.keep_sorted self ∧
  Timeline.sr (snd (Timeline.add_track self instrument name)) = Timeline.sr self.
Proof.
  rewrite add_track_unfold.
  destruct (free_id_spec (Timeline.tracks self) (Z.of_nat (size (Timeline.tracks self))))
    as (_ & Hfresh & _).
  set (t_id := Timeline.free_id _ _) in *.
  cbn [fst snd Timeline.set_tracks Timeline.tracks Timeline.notes
       Timeline.keep_sorted Timeline.sr].
  split_and!; try done.
  - intros i track Hi. rewrite lookup_insert_ne; [done |].
    intros <-. apply Hfresh. apply elem_of_dom. eauto.
  - apply lookup_insert_eq.
Qed.
End add_track.

(** X4. [add_track] never replaces a track: every id other than the new
    one maps to what it mapped to before, the new id maps to the new
    track, the number of tracks grows by one, and the notes, the rate and
    the sorting mode are unchanged. *)
Theorem add_track_keeps_tracks self instrument name :
  let t_id := fst (Timeline.add_track self instrument name) in
  let self' := snd (Timeline.add_track self instrument name) in
  (∀ i, i ≠ t_id → Timeline.tracks self' !! i = Timeline.tracks self !! i) ∧
  (∀ i track, Timeline.tracks self !! i = Some track →
     Timeline.tracks self' !! i = Some track) ∧
  (∃ track, Timeline.tracks self' !! t_id = Some track ∧ Track.id track = t_id) ∧
  size (Timeline.tracks self') = S (size (Timeline.tracks self)) ∧
  Timeline.notes self' = Timeline.notes self ∧
  Timeline.keep_sorted self' = Timeline.keep_sorted self ∧
  Timeline.sr self' = Timeline.sr self.
Proof.
  cbv zeta. rewrite add_track_unfold.
  destruct (free_id_spec (Timeline.tracks self) (Z.of_nat (size (Timeline.tracks self))))
    as (_ & Hfresh & _).
  set (t_id := Timeline.free_id _ _) in *.
  cbn [fst snd Timeline.set_tracks Timeline.tracks Timeline.notes
       Timeline.keep_sorted Timeline.sr].
  split_and!; try done.
  - intros i Hi. by rewrite lookup_insert_ne.
  - intros i track Hi. rewrite lookup_insert_ne; [done |].
    intros <-. apply Hfresh. apply elem_of_dom. eauto.
  - eexists. split; [apply lookup_insert_eq | done].
  - apply map_size_insert_None. by apply not_elem_of_dom.
Qed.

(** X5. On a Timeline whose track ids are exactly 0, ..., n - 1 (as they
    are when tracks are only ever added with [add_track]), [add_track]
    returns n: the smallest non-negative integer not in use; and the ids
    are then exactly 0, ..., n. *)
Theorem add_track_contiguous self instrument name :
  (∀ j, j ∈ dom (Timeline.tracks self)
        ↔ (0 ≤ j < Z.of_nat (size (Timeline.tracks self)))%Z) →
  fst (Timeline.add_track self instrument name) = Z.of_nat (size (Timeline.tracks self)) ∧
  smallest_unused_nonneg (Timeline.tracks self)
    (fst (Timeline.add_track self instrument name)) ∧
  ∀ j, j ∈ dom (Timeline.tracks (snd (Timeline.add_track self instrument name)))
       ↔ (0 ≤ j < Z.of_nat (S (size (Timeline.tracks self))))%Z.
Proof.
  intros Hcont.
  destruct (contiguous_add self instrument name Hcont) as (Hid & _ & Hdom).
  split; [done |]. split; [| done].
  rewrite Hid. split; [lia |]. split.
  - intros Hin. apply Hcont in Hin. lia.
  - intros j Hj Hfree. destruct (decide (Z.of_nat (size (Timeline.tracks self)) ≤ j)%Z);
      [done |]. exfalso. apply Hfree. apply Hcont. lia.
Qed.

Lemma add_track_contiguous_witness :
  fst (Timeline.add_track ex_timeline_0 (inr ex_kick) None)
  = Z.of_nat (size (Timeline.tracks ex_timeline_0)) ∧
  smallest_unused_nonneg (Timeline.tracks ex_timeline_0)
    (fst (Timeline.add_track ex_timeline_0 (inr ex_kick) None)) ∧
  ∀ j, j ∈ dom (Timeline.tracks (snd (Timeline.add_track ex_timeline_0 (inr ex_kick) None)))
       ↔ (0 ≤ j < Z.of_nat (S (size (Timeline.tracks ex_timeline_0))))%Z.
Proof.
  apply (add_track_contiguous ex_timeline_0 (inr ex_kick) None).
  intros j. simpl. rewrite dom_insert_L, dom_empty_L, elem_of_union, elem_of_singleton,
    elem_of_empty, map_size_insert_None, map_size_empty by apply lookup_empty. lia.
Defined.

Lemma from_generators_fold gens : ∀ c,
  (∀ j, j ∈ dom (Timeline.tracks c) ↔ (0 ≤ j < Z.of_nat (size (Timeline.tracks c)))%Z) →
  let c' := foldl (λ c gen, snd (Timeline.add_track c gen None)) c gens in
  size (Timeline.tracks c') = size (Timeline.tracks c) + length gens ∧
  (∀ j, j ∈ dom (Timeline.tracks c') ↔ (0 ≤ j < Z.of_nat (size (Timeline.tracks c')))%Z) ∧
  (∀ i track, Timeline.tracks c !! i = Some track → Timeline.tracks c' !! i = Some track) ∧
  (∀ i gen, gens !! i = Some gen →
     Timeline.tracks c' !! Z.of_nat (size (Timeline.tracks c) + i)
     = Some (Track.mk (Z.of_nat (size (Timeline.tracks c) + i))
               match gen with
               | inl ins => ins
               | inr g => Instrument.mk (Wavetable.init g 44100)
               end)) ∧
  Timeline.notes c' = Timeline.notes c ∧
  Timeline.keep_sorted c' = Timeline.keep_sorted c ∧
  Timeline.sr c' = Timeline.sr c.
Proof.
  induction gens as [| gen gens IH]; intros c Hcont; cbv zeta; cbn [foldl length].
  - rewrite Nat.add_0_r. split_and!; try done.
  - destruct (contiguous_add c gen None Hcont) as (Hid & Hsize & Hdom).
    rewrite <- Hsize in Hdom.
    destruct (add_track_effect c gen None) as (Hkeep & Hnew & Hn & Hk & Hsr).
    specialize (IH (snd (Timeline.add_track c gen None)) Hdom).
    cbv zeta in IH. destruct IH as (Hs' & Hd' & Hkeep' & Hnew' & Hn' & Hk' & Hsr').
    split_and!.
    + rewrite Hs', Hsize. lia.
    + done.
    + intros i track Hi. apply Hkeep'. by apply Hkeep.
    + intros [| i] g Hg; simpl in Hg.
      * inversion Hg; subst g. rewrite Nat.add_0_r. apply Hkeep'.
        rewrite <- Hid. exact Hnew.
      * specialize (Hnew' i g Hg). rewrite Hsize in Hnew'.
        by replace (size (Timeline.tracks c) + S i) with (S (size (Timeline.tracks c)) + i)
          by lia.
    + congruence.
    + congruence.
    + congruence.
Qed.

(** X6. [Timeline.from_generators] always succeeds and numbers the tracks
    in the order given: element [i] of the list becomes track [i] (a bare
    generator wrapped in an Instrument on a fresh Wavetable at rate 44100,
    an Instrument taken as it is), the ids are exactly 0, ..., n - 1, and the
    Timeline has no notes, keeps notes sorted and renders at rate 44100. *)
Theorem from_generators_tracks gens :
  ∃ c,
    Timeline_from_generators gens = Ok c ∧
    size (Timeline.tracks c) = length gens ∧
    (∀ j, j ∈ dom (Timeline.tracks c) ↔ (0 ≤ j < Z.of_nat (length gens))%Z) ∧
    (∀ i gen, gens !! i = Some gen →
       Timeline.tracks c !! Z.of_nat i
       = Some (Track.mk (Z.of_nat i)
                 match gen with
                 | inl ins => ins
                 | inr g => Instrument.mk (Wavetable.init g 44100)
                 end)) ∧
    Timeline.notes c = [] ∧
    Timeline.keep_sorted c = true ∧
    Timeline.sr c = 44100%Z.
Proof.
  unfold Timeline_from_generators.
  change (Timeline.init [] [] true 44100 120)
    with (Ok (Timeline.mk ∅ [] true 44100 120)).
  eexists. split; [reflexivity |].
  set (c0 := Timeline.mk ∅ [] true 44100 120).
  assert (H0 : size (Timeline.tracks c0) = 0) by apply map_size_empty.
  destruct (from_generators_fold gens c0) as (Hsize & Hdom & _ & Hnew & Hn & Hk & Hsr).
  { intros j. rewrite H0. simpl. rewrite dom_empty_L, elem_of_empty. lia. }
  cbv zeta in Hsize, Hdom, Hnew, Hn, Hk, Hsr. rewrite H0 in Hsize.
  split_and!; try done.
  intros j. rewrite Hdom, Hsize. done.
Qed.

(** ** Notes: [add_note], [populate_notes], [sort_notes] *)

Section notes.
Implicit Types (a l : list Note.t) (x n : Note.t) (self : Timeline.t).

Lemma insert_by_start_split x l1 l2 :
  Forall (λ m, (Note.start_time m <= Note.start_time x)%Q) l1 →
  Forall (λ m, (Note.start_time x < Note.start_time m)%Q) l2 →
  insert_by_start x (l1 ++ l2) = l1 ++ x :: l2.
Proof.
  intros H1 H2. induction H1 as [| m l1 Hm Hl1 IH]; simpl.
  - destruct H2 as [| y l2 Hy Hl2]; simpl; [done |].
    apply Qltb_lt in Hy. by rewrite Hy.
  - apply Qltb_ge in Hm. by rewrite Hm, IH.
Qed.

(** On a sorted list the binary search of [insort] and the linear scan
    of the stable insertion find the same place. *)
Lemma insort_insert_by_start a x :
  StronglySorted start_le a → insort a x = insert_by_start x a.
Proof.
  intros Hs. destruct (insort_split a x Hs) as (l1 & l2 & -> & -> & H1 & H2).
  symmetry. by apply insert_by_start_split.
Qed.

Lemma foldl_insort_insert ns : ∀ a,
  StronglySorted start_le a →
  foldl insort a ns = foldl (λ acc x, insert_by_start x acc) a ns.
Proof.
  induction ns as [| n ns IH]; intros a Hs; simpl; [done |].
  rewrite <- insort_insert_by_start by done. apply IH. by apply insort_sorted.
Qed.

Lemma insort_perm a x : insort a x ≡ₚ x :: a.
Proof.
  unfold insort. rewrite <- Permutation_middle. by rewrite take_drop.
Qed.

Lemma foldl_insort_perm ns : ∀ a, foldl insort a ns ≡ₚ a ++ ns.
Proof.
  induction ns as [| n ns IH]; intros a; simpl.
  - by rewrite app_nil_r.
  - rewrite IH, insort_perm. simpl. by rewrite <- Permutation_middle.
Qed.

Lemma insert_by_start_perm x l : insert_by_start x l ≡ₚ x :: l.
Proof.
  induction l as [| y l IH]; simpl; [done |].
  destruct (Qltb _ _); [done |]. rewrite IH. apply perm_swap.
Qed.

Lemma list_sort_by_start_perm l : list_sort_by_start l ≡ₚ l.
Proof.
  unfold list_sort_by_start.
  assert (H : ∀ acc, foldl (λ acc x, insert_by_start x acc) acc l ≡ₚ acc ++ l).
  { induction l as [| x l IH]; intros acc; simpl.
    - by rewrite app_nil_r.
    - rewrite IH, insert_by_start_perm. simpl. by rewrite <- Permutation_middle. }
  apply (H []).
Qed.

Lemma add_notes_unsorted adds : ∀ self,
  Timeline.keep_sorted self = false →
  Timeline.notes (foldl Timeline.add_note self adds) = Timeline.notes self ++ adds ∧
  Timeline.keep_sorted (foldl Timeline.add_note self adds) = false ∧
  Timeline.tracks (foldl Timeline.add_note self adds) = Timeline.tracks self ∧
  Timeline.sr (foldl Timeline.add_note self adds) = Timeline.sr self.
Proof.
  induction adds as [| n adds IH]; intros self Hk; simpl.
  - by rewrite app_nil_r.
  - destruct (IH (Timeline.add_note self n)) as (Hn & Hk' & Ht & Hsr).
    { unfold Timeline.add_note. by rewrite Hk. }
    rewrite Hn, Hk', Ht, Hsr. unfold Timeline.add_note. rewrite Hk. simpl.
    by rewrite <- app_assoc.
Qed.

Lemma add_notes_eager adds : ∀ self,
  Timeline.keep_sorted self = true →
  Timeline.notes (foldl Timeline.add_note self adds)
  = foldl insort (Timeline.notes self) adds ∧
  Timeline.keep_sorted (foldl Timeline.add_note self adds) = true ∧
  Timeline.tracks (foldl Timeline.add_note self adds) = Timeline.tracks self ∧
  Timeline.sr (foldl Timeline.add_note self adds) = Timeline.sr self.
Proof.
  induction adds as [| n adds IH]; intros self Hk; simpl; [done |].
  destruct (IH (Timeline.add_note self n)) as (Hn & Hk' & Ht & Hsr).
  { unfold Timeline.add_note. by rewrite Hk. }
  rewrite Hn, Hk', Ht, Hsr. unfold Timeline.add_note. by rewrite Hk.
Qed.
End notes.

(** X7. Notes are never lost or duplicated: [add_note] leaves a
    permutation of the old notes plus the new one, [populate_notes] a
    permutation of the old notes plus the given ones, and [sort_notes] a
    permutation of the notes, whatever the sorting mode and whether or not
    the notes were sorted before. *)
Theorem notes_are_kept self n ns :
  Timeline.notes (Timeline.add_note self n) ≡ₚ n :: Timeline.notes self ∧
  Timeline.notes (Timeline.populate_notes self ns) ≡ₚ Timeline.notes self ++ ns ∧
  Timeline.notes (Timeline.sort_notes self) ≡ₚ Timeline.notes self.
Proof.
  split; [| split].
  - unfold Timeline.add_note. destruct (Timeline.keep_sorted self); simpl.
    + apply insort_perm.
    + by rewrite <- Permutation_cons_append.
  - unfold Timeline.populate_notes. destruct (Timeline.keep_sorted self); simpl.
    + apply foldl_insort_perm.
    + done.
  - apply list_sort_by_start_perm.
Qed.

(** X8. Sorting eagerly and sorting at render time agree.  Take two
    Timelines with the same tracks and rate, one with [keep_sorted = True]
    and one with [keep_sorted = False], and give both the same notes through
    [populate_notes] and then [add_note].  The second holds the notes in the
    order given; the first holds them in the order the stable sort gives;
    and [generate_audio] returns the same samples, or raises the same
    exception, on both. *)
Theorem sorting_modes_agree trs ns adds sr bpm st et w :
  let eager := foldl Timeline.add_note
                 (Timeline.populate_notes (Timeline.mk trs [] true sr bpm) ns) adds in
  let lazy := foldl Timeline.add_note
                (Timeline.populate_notes (Timeline.mk trs [] false sr bpm) ns) adds in
  tracks_allocated (length (heap w)) trs →
  Timeline.notes lazy = ns ++ adds ∧
  Timeline.notes eager = list_sort_by_start (ns ++ adds) ∧
  output (fst (fst (Timeline.generate_audio eager st et w)))
         (snd (Timeline.generate_audio eager st et w))
  = output (fst (fst (Timeline.generate_audio lazy st et w)))
           (snd (Timeline.generate_audio lazy st et w)).
Proof.
  cbv zeta. intros Hall.
  set (e0 := Timeline.populate_notes (Timeline.mk trs [] true sr bpm) ns).
  set (l0 := Timeline.populate_notes (Timeline.mk trs [] false sr bpm) ns).
  destruct (add_notes_eager adds e0 eq_refl) as (Hen & Hek & Het & Hes).
  destruct (add_notes_unsorted adds l0 eq_refl) as (Hln & Hlk & Hlt & Hls).
  set (eager := foldl Timeline.add_note e0 adds) in *.
  set (lazy := foldl Timeline.add_note l0 adds) in *.
  assert (Hnl : Timeline.notes lazy = ns ++ adds) by (by rewrite Hln).
  assert (Hne : Timeline.notes eager = list_sort_by_start (ns ++ adds)).
  { rewrite Hen. unfold e0, Timeline.populate_notes. simpl.
    rewrite <- foldl_app. unfold list_sort_by_start.
    apply foldl_insort_insert. constructor. }
  split; [done |]. split; [done |].
  destruct (generate_audio_refines eager st et w) as (_ & _ & _ & _ & _ & _ & Ho1 & _).
  { by rewrite Het. }
  destruct (generate_audio_refines lazy st et w) as (_ & _ & _ & _ & _ & _ & Ho2 & _).
  { by rewrite Hlt. }
  rewrite Ho1, Ho2. unfold render.
  destruct (after_sort_fields eager) as (Ht1 & _ & Hs1).
  destruct (after_sort_fields lazy) as (Ht2 & _ & Hs2).
  assert (Hnotes : Timeline.notes (after_sort eager) = Timeline.notes (after_sort lazy)).
  { unfold after_sort. rewrite Hek, Hlk. simpl. by rewrite Hne, Hnl. }
  rewrite (window_end_notes (after_sort lazy) (after_sort eager) et Hnotes).
  rewrite Hs1, Hs2, Ht1, Ht2, Hnotes, Het, Hlt, Hes, Hls. done.
Qed.

Lemma sorting_modes_agree_witness :
  let trs : gmap Z Track.t := <[0%Z := ex_track 0]> ∅ in
  let ns := [ex_note (1 # 2) (1 # 4) (1 # 2) true] in
  let adds := [ex_note 0 (1 # 4) 1 true] in
  let eager := foldl Timeline.add_note
                 (Timeline.populate_notes (Timeline.mk trs [] true 4 120) ns) adds in
  let lazy := foldl Timeline.add_note
                (Timeline.populate_notes (Timeline.mk trs [] false 4 120) ns) adds in
  Timeline.notes lazy = ns ++ adds ∧
  Timeline.notes eager = list_sort_by_start (ns ++ adds) ∧
  output (fst (fst (Timeline.generate_audio eager 0 None ex_world)))
         (snd (Timeline.generate_audio eager 0 None ex_world))
  = output (fst (fst (Timeline.generate_audio lazy 0 None ex_world)))
           (snd (Timeline.generate_audio lazy 0 None ex_world)).
Proof.
  apply (sorting_modes_agree (<[0%Z := ex_track 0]> ∅)
           [ex_note (1 # 2) (1 # 4) (1 # 2) true] [ex_note 0 (1 # 4) 1 true]
           4%Z 120%Z 0%Q None ex_world).
  apply map_Forall_insert_2; [| apply map_Forall_empty].
  split; [simpl; lia | apply map_Forall_empty].
Defined.

(** ** What [generate_audio] changes, and how it fails *)

Section render_effects.
Implicit Types (trs : gmap Z Track.t) (w : World) (ns : list Note.t).

Lemma track_extends_refl t : track_extends t t.
Proof. by split_and!. Qed.

Lemma track_extends_trans t1 t2 t3 :
  track_extends t1 t2 → track_extends t2 t3 → track_extends t1 t3.
Proof.
  intros (Hi1 & Hg1 & Hs1 & Hc1) (Hi2 & Hg2 & Hs2 & Hc2).
  split_and!; [congruence.. |]. by etrans.
Qed.

Lemma play_note_extends track n w :
  track_extends track
    (Track.mk (Track.id track) (snd (fst (Instrument.play_note (Track.instrument track) n w)))).
Proof.
  rewrite play_note_eq. cbv zeta.
  pose proof (getitem_fields (Instrument.wavetable (Track.instrument track)) (Note.note n)
                (emit (EvPlay n) w)) as (Hg & Hsr & _).
  pose proof (getitem_cached (Instrument.wavetable (Track.instrument track)) (Note.note n)
                (emit (EvPlay n) w)) as [_ Hsub].
  destruct (wt_resolve _ _); by split_and!.
Qed.

Lemma play_note_raises self n w e :
  fst (fst (Instrument.play_note self n w)) = Raise e →
  e = TypeError_NoneType ∧ wt_resolve (Instrument.wavetable self) (Note.note n) = PyNone.
Proof.
  rewrite play_note_eq. cbv zeta. destruct (wt_resolve _ _); [| done].
  simpl. intros H. by inversion H.
Qed.

Lemma np_iadd_raises dst src h e :
  fst (np_iadd dst src h) = Raise e →
  e = ValueError_broadcast (arr_len dst) (arr_len src) ∧
  arr_len src ≠ arr_len dst ∧ arr_len src ≠ 1.
Proof.
  unfold np_iadd. repeat case_decide; simpl; intros Hr; inversion Hr. done.
Qed.

(** The loop changes the tracks only by filling caches. *)
Lemma for_notes_extends sr st et a ns : ∀ trs w i,
  option_Forall2 track_extends (trs !! i)
    (snd (fst (Timeline.for_notes sr st et a ns trs w)) !! i).
Proof.
  assert (Hrefl : ∀ trs i, option_Forall2 track_extends (trs !! i) (trs !! i)).
  { intros trs i. destruct (trs !! i); constructor. apply track_extends_refl. }
  induction ns as [| n ns IH]; intros trs w i; cbn [Timeline.for_notes]; [done |].
  destruct (Qle_bool (Note.start_time n + Note.duration n) st); [apply IH |].
  destruct (Qle_bool et (Note.start_time n)); [done |].
  destruct (trs !! Note.track_id n) as [track |] eqn:Eid; [| done].
  pose proof (play_note_extends track n (emit (EvResolve n) w)) as Hext.
  destruct (Instrument.play_note _ _ _) as [[r inst] w1]. simpl in Hext.
  set (trs1 := <[Note.track_id n := Track.mk (Track.id track) inst]> trs).
  assert (H1 : option_Forall2 track_extends (trs !! i) (trs1 !! i)).
  { unfold trs1. destruct (decide (Note.track_id n = i)) as [<- | Hne].
    - rewrite lookup_insert_eq, Eid. by constructor.
    - rewrite lookup_insert_ne by done. apply Hrefl. }
  destruct r as [sound | e]; [| done].
  destruct (np_iadd _ _ _) as [[u | e] h]; [| done].
  match goal with
  | |- context [Timeline.for_notes _ _ _ _ ns trs1 ?w'] => specialize (IH trs1 w' i)
  end.
  destruct H1 as [t t1 H1 |]; inversion IH; subst; constructor.
  by eapply track_extends_trans.
Qed.

(** Why the loop raises. *)
Lemma for_notes_raises sr st et a ns : ∀ trs w e,
  fst (fst (Timeline.for_notes sr st et a ns trs w)) = Raise e →
  (∃ n, n ∈ ns ∧ e = KeyError (Note.track_id n) ∧ trs !! Note.track_id n = None) ∨
  (e = TypeError_NoneType ∧
   ∃ n track, n ∈ ns ∧ trs !! Note.track_id n = Some track ∧
     wt_resolve (Instrument.wavetable (Track.instrument track)) (Note.note n) = PyNone) ∨
  (∃ k m, e = ValueError_broadcast k m ∧ m ≠ k ∧ m ≠ 1).
Proof.
  induction ns as [| n ns IH]; intros trs w e; cbn [Timeline.for_notes]; [done |].
  assert (Hlift : ∀ trs' w',
    tracks_equiv trs trs' →
    fst (fst (Timeline.for_notes sr st et a ns trs' w')) = Raise e →
    (∃ n0, n0 ∈ n :: ns ∧ e = KeyError (Note.track_id n0) ∧ trs !! Note.track_id n0 = None) ∨
    (e = TypeError_NoneType ∧
     ∃ n0 track, n0 ∈ n :: ns ∧ trs !! Note.track_id n0 = Some track ∧
       wt_resolve (Instrument.wavetable (Track.instrument track)) (Note.note n0) = PyNone) ∨
    (∃ k m, e = ValueError_broadcast k m ∧ m ≠ k ∧ m ≠ 1)).
  { intros trs' w' Heq Hr. destruct (IH trs' w' e Hr) as [(n0 & Hin & -> & Hnone) | [[-> H] | H]].
    - left. exists n0. split; [by right |]. split; [done |].
      specialize (Heq (Note.track_id n0)). rewrite Hnone in Heq. by inversion Heq.
    - right. left. split; [done |]. destruct H as (n0 & track & Hin & Hsome & Hres).
      specialize (Heq (Note.track_id n0)). rewrite Hsome in Heq.
      inversion Heq as [t t' [_ Hr'] Ht Ht' |]; subst.
      exists n0, t. split; [by right |]. split; [done |]. by rewrite Hr'.
    - by right; right. }
  destruct (Qle_bool (Note.start_time n + Note.duration n) st).
  { apply Hlift. apply tracks_equiv_refl. }
  destruct (Qle_bool et (Note.start_time n)); [done |].
  destruct (trs !! Note.track_id n) as [track |] eqn:Eid.
  2:{ simpl. intros H. inversion H. left. exists n. split; [by left | done]. }
  pose proof (play_note_raises (Track.instrument track) n (emit (EvResolve n) w)) as Hpr.
  assert (Heq1 : tracks_equiv trs
            (<[Note.track_id n := Track.mk (Track.id track)
                 (snd (fst (Instrument.play_note (Track.instrument track) n
                              (emit (EvResolve n) w))))]> trs)).
  { rewrite play_note_eq. cbv zeta.
    assert (wavetable_equiv (Instrument.wavetable (Track.instrument track))
              (snd (fst (Wavetable.__getitem__ (Instrument.wavetable (Track.instrument track))
                           (Note.note n) (emit (EvPlay n) (emit (EvResolve n) w)))))).
    { split; [symmetry; apply getitem_fields |]. intros k. symmetry.
      apply getitem_resolve_after. }
    destruct (wt_resolve _ _); cbn [fst snd]; by apply (insert_track_equiv trs _ track). }
  destruct (Instrument.play_note _ _ _) as [[r inst] w1]. simpl in Heq1, Hpr.
  destruct r as [sound | e'].
  2:{ simpl. intros H. inversion H; subst e'. destruct (Hpr e eq_refl) as [-> Hres].
      right. left. split; [done |]. exists n, track. split; [by left | done]. }
  pose proof (np_iadd_raises
                (np_slice a (py_int ((Note.start_time n - st) * inject_Z sr))
                   (py_int ((Note.start_time n - st) * inject_Z sr) + Z.of_nat (arr_len sound)))
                sound (heap w1)) as Hir.
  destruct (np_iadd _ _ _) as [[u | e'] h].
  2:{ simpl. intros H. inversion H; subst e'. destruct (Hir e eq_refl) as (-> & ? & ?).
      right. right. eauto. }
  by apply Hlift.
Qed.
End render_effects.

Lemma after_sort_perm self : Timeline.notes (after_sort self) ≡ₚ Timeline.notes self.
Proof.
  unfold after_sort. destruct (Timeline.keep_sorted self); simpl; [done |].
  apply list_sort_by_start_perm.
Qed.

Lemma window_end_raises self et e :
  Timeline.window_end self et = Raise e →
  e = ValueError_empty_max ∧ et = None ∧ Timeline.notes self = [].
Proof.
  unfold Timeline.window_end. destruct et as [e0 |]; [done |].
  destruct (Timeline.notes self) as [| n ns]; simpl; [| done].
  intros H. by inversion H.
Qed.

(** X9. [generate_audio] neither adds nor removes tracks or notes: every
    track id maps to the same track as before, with the same generator and
    rate and a cache that has only grown; the notes are a permutation of
    the notes before (the same list when [keep_sorted] holds); the rate and
    the sorting mode are unchanged.  This holds whether the call returns a
    buffer or raises. *)
Theorem generate_audio_keeps_timeline self st et w :
  let self' := snd (fst (Timeline.generate_audio self st et w)) in
  (∀ i, option_Forall2 track_extends (Timeline.tracks self !! i)
          (Timeline.tracks self' !! i)) ∧
  dom (Timeline.tracks self') = dom (Timeline.tracks self) ∧
  Timeline.notes self' ≡ₚ Timeline.notes self ∧
  (Timeline.keep_sorted self = true → Timeline.notes self' = Timeline.notes self) ∧
  Timeline.keep_sorted self' = Timeline.keep_sorted self ∧
  Timeline.sr self' = Timeline.sr self ∧
  Timeline.bpm self' = Timeline.bpm self.
Proof.
  cbv zeta.
  assert (Hext : ∀ i, option_Forall2 track_extends (Timeline.tracks self !! i)
            (Timeline.tracks (snd (fst (Timeline.generate_audio self st et w))) !! i) ∧
          Timeline.notes (snd (fst (Timeline.generate_audio self st et w)))
          = Timeline.notes (after_sort self) ∧
          Timeline.keep_sorted (snd (fst (Timeline.generate_audio self st et w)))
          = Timeline.keep_sorted self ∧
          Timeline.sr (snd (fst (Timeline.generate_audio self st et w))) = Timeline.sr self ∧
          Timeline.bpm (snd (fst (Timeline.generate_audio self st et w)))
          = Timeline.bpm self).
  { intros i. unfold Timeline.generate_audio. fold (after_sort self).
    assert (Hf : Timeline.tracks (after_sort self) = Timeline.tracks self ∧
                 Timeline.keep_sorted (after_sort self) = Timeline.keep_sorted self ∧
                 Timeline.sr (after_sort self) = Timeline.sr self ∧
                 Timeline.bpm (after_sort self) = Timeline.bpm self).
    { unfold after_sort. by destruct self as [? ? [] ? ?]. }
    destruct Hf as (Ht & Hk & Hsr & Hb).
    assert (Hrefl : option_Forall2 track_extends (Timeline.tracks self !! i)
                      (Timeline.tracks (after_sort self) !! i)).
    { rewrite Ht. destruct (Timeline.tracks self !! i); constructor.
      apply track_extends_refl. }
    destruct (Timeline.window_end (after_sort self) et) as [e | ex]; [| done].
    destruct (np_zeros _ _) as [[a | ex] h]; [| done].
    pose proof (for_notes_extends (Timeline.sr (after_sort self)) st e a
                  (Timeline.notes (after_sort self)) (Timeline.tracks (after_sort self))
                  (set_heap h w) i) as Hfe.
    destruct (Timeline.for_notes _ _ _ _ _ _ _) as [[r trs] w']. simpl in *.
    rewrite Ht in Hfe. done. }
  split; [intros i; apply Hext |].
  destruct (Hext 0%Z) as (_ & Hn & Hk & Hsr & Hb).
  split_and!; try done.
  - apply set_eq. intros i. rewrite !elem_of_dom.
    destruct (Hext i) as (Hi & _). inversion Hi as [t t' _ Ht Ht' | Ht Ht'].
    + split; eauto.
    + split; intros [? ?]; done.
  - rewrite Hn. apply after_sort_perm.
  - intros Hks. rewrite Hn. unfold after_sort. by rewrite Hks.
Qed.

(** X10. The exceptions of [generate_audio] and their causes: [ValueError]
    from [max] only on a Timeline without notes rendered without
    [end_time]; [ValueError] from [np.zeros] only for a window of negative
    length; [KeyError] only for the id of a track that some note names and
    the Timeline lacks; [TypeError] only when the pitch of some note
    resolves to [None] on its track (the synthesizer placeholder);
    [ValueError] from [+=] only for shapes that differ, the rendered one not
    being (1,).  It never raises [Warning]. *)
Theorem generate_audio_raises_because self st et w e :
  fst (fst (Timeline.generate_audio self st et w)) = Raise e →
  (e = ValueError_empty_max ∧ et = None ∧ Timeline.notes self = []) ∨
  (e = ValueError_negative_dimensions ∧
   ∃ end_time, Timeline.window_end (after_sort self) et = Ok end_time ∧
     (py_int ((end_time - st) * inject_Z (Timeline.sr self)) < 0)%Z) ∨
  (∃ n, n ∈ Timeline.notes self ∧ e = KeyError (Note.track_id n) ∧
        Timeline.tracks self !! Note.track_id n = None) ∨
  (e = TypeError_NoneType ∧
   ∃ n track, n ∈ Timeline.notes self ∧
     Timeline.tracks self !! Note.track_id n = Some track ∧
     wt_resolve (Instrument.wavetable (Track.instrument track)) (Note.note n) = PyNone) ∨
  (∃ k m, e = ValueError_broadcast k m ∧ m ≠ k ∧ m ≠ 1).
Proof.
  unfold Timeline.generate_audio. fold (after_sort self).
  destruct (after_sort_fields self) as (Ht & _ & Hsr).
  pose proof (after_sort_perm self) as Hperm.
  destruct (Timeline.window_end (after_sort self) et) as [end_time | ex] eqn:Ewe.
  2:{ simpl. intros H. inversion H; subst ex.
      apply window_end_raises in Ewe as (-> & -> & Hnil). left.
      split; [done |]. split; [done |]. rewrite Hnil in Hperm.
      by apply Permutation_nil in Hperm. }
  rewrite Hsr, Ht. unfold np_zeros, np_alloc.
  destruct (_ <? 0)%Z eqn:Eneg.
  { simpl. intros H. inversion H. right. left. split; [done |].
    exists end_time. split; [done | lia]. }
  pose proof (for_notes_raises (Timeline.sr self) st end_time
                (NdArray (length (heap w))
                   0 (length (replicate
                                (Z.to_nat (py_int ((end_time - st) * inject_Z (Timeline.sr self))))
                                0%Q)))
                (Timeline.notes (after_sort self)) (Timeline.tracks self)
                (set_heap (heap w ++ [replicate
                            (Z.to_nat (py_int ((end_time - st) * inject_Z (Timeline.sr self))))
                            0%Q]) w) e) as Hfr.
  destruct (Timeline.for_notes _ _ _ _ _ _ _) as [[[u | ex] trs] w']; [done |].
  simpl in *. intros H. inversion H; subst ex. right. right.
  destruct (Hfr eq_refl) as [(n & Hin & Hn) | [[-> (n & track & Hin & Hn)] | Hb]].
  - left. exists n. split; [by rewrite <- Hperm | done].
  - right. left. split; [done |]. exists n, track. split; [by rewrite <- Hperm | done].
  - by right; right.
Qed.

Lemma generate_audio_raises_because_witness :
  let self := ex_timeline_late in
  let e := KeyError 7 in
  (e = ValueError_empty_max ∧ None = @None Q ∧ Timeline.notes self = []) ∨
  (e = ValueError_negative_dimensions ∧
   ∃ end_time, Timeline.window_end (after_sort self) None = Ok end_time ∧
     (py_int ((end_time - 0) * inject_Z (Timeline.sr self)) < 0)%Z) ∨
  (∃ n, n ∈ Timeline.notes self ∧ e = KeyError (Note.track_id n) ∧
        Timeline.tracks self !! Note.track_id n = None) ∨
  (e = TypeError_NoneType ∧
   ∃ n track, n ∈ Timeline.notes self ∧
     Timeline.tracks self !! Note.track_id n = Some track ∧
     wt_resolve (Instrument.wavetable (Track.instrument track)) (Note.note n) = PyNone) ∨
  (∃ k m, e = ValueError_broadcast k m ∧ m ≠ k ∧ m ≠ 1).
Proof.
  apply (generate_audio_raises_because ex_timeline_late 0%Q None ex_world (KeyError 7)).
  vm_compute. reflexivity.
Defined.

(** X11. The two failures that precede the loop.  [generate_audio] raises
    the [ValueError] of [max] exactly when the Timeline has no notes and no
    [end_time] is given; it raises the [ValueError] of [np.zeros] exactly
    when [int((end_time - start_time) * sr)] is negative.  In both cases no
    buffer is allocated, nothing is logged and no cache is touched. *)
Theorem generate_audio_window_errors self st et w :
  (fst (fst (Timeline.generate_audio self st et w)) = Raise ValueError_empty_max
   ↔ et = None ∧ Timeline.notes self = []) ∧
  (∀ end_time,
     Timeline.window_end (after_sort self) et = Ok end_time →
     (fst (fst (Timeline.generate_audio self st et w)) = Raise ValueError_negative_dimensions
      ↔ (py_int ((end_time - st) * inject_Z (Timeline.sr self)) < 0)%Z)) ∧
  (fst (fst (Timeline.generate_audio self st et w)) = Raise ValueError_empty_max ∨
   fst (fst (Timeline.generate_audio self st et w)) = Raise ValueError_negative_dimensions →
   snd (Timeline.generate_audio self st et w) = w ∧
   Timeline.tracks (snd (fst (Timeline.generate_audio self st et w)))
   = Timeline.tracks self).
Proof.
  unfold Timeline.generate_audio. fold (after_sort self).
  destruct (after_sort_fields self) as (Ht & _ & Hsr).
  pose proof (after_sort_perm self) as Hperm.
  destruct (Timeline.window_end (after_sort self) et) as [end_time | ex] eqn:Ewe.
  2:{ apply window_end_raises in Ewe as (-> & -> & Hnil). rewrite Hnil in Hperm.
      apply Permutation_nil in Hperm. simpl. split_and!; [done | done |].
      intros _. by rewrite Ht. }
  rewrite Hsr, Ht. unfold np_zeros, np_alloc.
  assert (Hnonempty : ¬ (et = None ∧ Timeline.notes self = [])).
  { intros [-> Hnil]. rewrite Hnil in Hperm. symmetry in Hperm.
    apply Permutation_nil in Hperm. unfold Timeline.window_end in Ewe.
    by rewrite Hperm in Ewe. }
  destruct (_ <? 0)%Z eqn:Eneg.
  { simpl. split_and!.
    - split; [done | intros H; by destruct Hnonempty].
    - intros e' He'. inversion He'; subst e'. split; [lia | done].
    - done. }
  pose proof (for_notes_raises (Timeline.sr self) st end_time
                (NdArray (length (heap w))
                   0 (length (replicate
                                (Z.to_nat (py_int ((end_time - st) * inject_Z (Timeline.sr self))))
                                0%Q)))
                (Timeline.notes (after_sort self)) (Timeline.tracks self)
                (set_heap (heap w ++ [replicate
                            (Z.to_nat (py_int ((end_time - st) * inject_Z (Timeline.sr self))))
                            0%Q]) w)) as Hfr.
  destruct (Timeline.for_notes _ _ _ _ _ _ _) as [[[u | ex] trs] w']; simpl in *.
  { split_and!.
    - split; [done | intros H; by destruct Hnonempty].
    - intros e' He'. inversion He'; subst e'. split; [done | lia].
    - intros [H | H]; done. }
  assert (Hex : ex ≠ ValueError_empty_max ∧ ex ≠ ValueError_negative_dimensions).
  { destruct (Hfr ex eq_refl) as [(n & _ & -> & _) | [[-> _] | (k & m & -> & _)]]; done. }
  destruct Hex as [Hex1 Hex2]. split_and!.
  - split; [intros H; by inversion H | intros H; by destruct Hnonempty].
  - intros e' He'. inversion He'; subst e'. split; [intros H; by inversion H | lia].
  - intros [H | H]; by inversion H.
Qed.

(** ** When rendering succeeds *)

Section sample_counts.
Implicit Types (p q : Q).

Lemma py_int_floor q : (0 <= q)%Q → py_int q = Qfloor q.
Proof.
  destruct q as [n d]. unfold Qle, py_int, Qfloor. simpl. intros H.
  apply Z.quot_div_nonneg; lia.
Qed.

Lemma py_int_nonneg q : (0 <= q)%Q → (0 ≤ py_int q)%Z.
Proof.
  intros H. rewrite py_int_floor by done.
  change 0%Z with (Qfloor 0). by apply Qfloor_resp_le.
Qed.

Lemma py_int_mono p q : (0 <= p)%Q → (p <= q)%Q → (py_int p ≤ py_int q)%Z.
Proof.
  intros Hp Hpq. rewrite !py_int_floor; [| lra | done]. by apply Qfloor_resp_le.
Qed.

Lemma py_int_add p q :
  (0 <= p)%Q → (0 <= q)%Q → (py_int p + py_int q ≤ py_int (p + q))%Z.
Proof.
  intros Hp Hq. rewrite !py_int_floor; [| lra | done | done].
  rewrite <- (Qfloor_Z (Qfloor p + Qfloor q)). apply Qfloor_resp_le.
  rewrite inject_Z_plus.
  pose proof (Qfloor_le p). pose proof (Qfloor_le q). lra.
Qed.

Lemma py_max_ge xs e x : py_max xs = Ok e → x ∈ xs → (x <= e)%Q.
Proof.
  destruct xs as [| x0 xs]; [done |]. simpl. intros H. inversion H as [He]. clear H He.
  assert (Hfold : ∀ ys m,
            (m <= foldl (λ m y, if Qltb m y then y else m) m ys)%Q ∧
            ∀ y, y ∈ ys → (y <= foldl (λ m y, if Qltb m y then y else m) m ys)%Q).
  { induction ys as [| y ys IH]; intros m; simpl.
    - split; [lra |]. intros y Hy. by apply elem_of_nil in Hy.
    - destruct (Qltb m y) eqn:E.
      + apply Qltb_lt in E. destruct (IH y) as [Hm Hys]. split; [lra |].
        intros z [-> | Hz]%elem_of_cons; [done | by apply Hys].
      + apply Qltb_ge in E. destruct (IH m) as [Hm Hys]. split; [done |].
        intros z [-> | Hz]%elem_of_cons; [lra | by apply Hys]. }
  destruct (Hfold xs x0) as [H0 Hxs].
  intros [-> | Hx]%elem_of_cons; [done | by apply Hxs].
Qed.

(** A trimmed note never has more samples than [int(duration * sr)]. *)
Lemma scaled_and_trimmed_length n sr base :
  Note.time_wise n = true → (0 <= Note.duration n * inject_Z sr)%Q →
  (Z.of_nat (length (scaled_and_trimmed n sr base))
   ≤ py_int (Note.duration n * inject_Z sr))%Z.
Proof.
  intros Htw Hd. apply py_int_nonneg in Hd. unfold scaled_and_trimmed. rewrite Htw.
  rewrite length_take. unfold slice_index.
  destruct (_ <? 0)%Z eqn:E; lia.
Qed.
End sample_counts.

Section fits.
Implicit Types (self : Timeline.t) (ns : list Note.t) (out : list Q).

Lemma mix_inside h self st e ns : ∀ out,
  (0 ≤ Timeline.sr self)%Z →
  Z.of_nat (length out) = py_int ((e - st) * inject_Z (Timeline.sr self)) →
  Forall (renders_inside self st e) ns →
  ∃ out', mix h (Timeline.sr self) st e ns (Timeline.tracks self) out = Ok out' ∧
          length out' = length out.
Proof.
  intros out Hsr. revert out.
  assert (Hsr' : (0 <= inject_Z (Timeline.sr self))%Q).
  { change 0%Q with (inject_Z 0). by rewrite <- Zle_Qle. }
  induction ns as [| n ns IH]; intros out HL Hall; cbn [mix]; [by exists out |].
  apply Forall_cons in Hall as [Hn Hall].
  destruct (Qle_bool (Note.start_time n + Note.duration n) st) eqn:G1; [by apply IH |].
  destruct (Qle_bool e (Note.start_time n)) eqn:G2; [by exists out |].
  destruct Hn as [Hskip | [Hlate | (Hst & Hend & Hdur & Htw & track & c & Hid & Hwsr & Hres)]].
  { apply Qle_bool_iff in Hskip. congruence. }
  { apply Qle_bool_iff in Hlate. congruence. }
  rewrite Hid. unfold rendered. rewrite Hres, Hwsr.
  set (s := scaled_and_trimmed n (Timeline.sr self) (np_read h c)).
  set (start_idx := py_int ((Note.start_time n - st) * inject_Z (Timeline.sr self))).
  assert (Hd : (0 <= Note.duration n * inject_Z (Timeline.sr self))%Q)
    by (by apply Qmult_le_0_compat).
  assert (Ho : (0 <= (Note.start_time n - st) * inject_Z (Timeline.sr self))%Q)
    by (apply Qmult_le_0_compat; [lra | done]).
  pose proof (scaled_and_trimmed_length n (Timeline.sr self) (np_read h c) Htw Hd) as Hlen.
  fold s in Hlen.
  assert (H0 : (0 ≤ start_idx)%Z) by (by apply py_int_nonneg).
  assert (Hfit : (start_idx + Z.of_nat (length s) ≤ Z.of_nat (length out))%Z).
  { rewrite HL. etrans; [apply Z.add_le_mono_l; exact Hlen |].
    etrans; [by apply py_int_add |]. apply py_int_mono; [lra |].
    assert (E : ((Note.start_time n - st) * inject_Z (Timeline.sr self)
                 + Note.duration n * inject_Z (Timeline.sr self)
                 == (Note.start_time n + Note.duration n - st)
                    * inject_Z (Timeline.sr self))%Q) by ring.
    rewrite E. apply Qmult_le_compat_r; [lra | done]. }
  rewrite accumulate_in_range by done.
  destruct (IH (added_at (Z.to_nat start_idx) s out)) as (out' & Hmix & Hlen').
  - rewrite <- HL. f_equal.
    by apply (accumulate_length out start_idx (start_idx + Z.of_nat (length s)) s),
             accumulate_in_range.
  - done.
  - exists out'. split; [done |]. rewrite Hlen'.
    by apply (accumulate_length out start_idx (start_idx + Z.of_nat (length s)) s),
             accumulate_in_range.
Qed.
End fits.

Lemma generate_audio_inside self st et e w :
  tracks_allocated (length (heap w)) (Timeline.tracks self) →
  Timeline.window_end (after_sort self) et = Ok e →
  (0 ≤ Timeline.sr self)%Z →
  (st <= e)%Q →
  Forall (renders_inside self st e) (Timeline.notes self) →
  ∃ a,
    fst (fst (Timeline.generate_audio self st et w)) = Ok a ∧
    arr_len a = Z.to_nat (py_int ((e - st) * inject_Z (Timeline.sr self))) ∧
    length (np_read (heap (snd (Timeline.generate_audio self st et w))) a) = arr_len a.
Proof.
  intros Hall Hwe Hsr Hste Hns.
  destruct (generate_audio_refines self st et w Hall) as (_ & _ & _ & _ & _ & _ & Ho & _).
  unfold render in Ho. rewrite Hwe in Ho.
  destruct (after_sort_fields self) as (Ht & _ & Hsr').
  rewrite Hsr', Ht in Ho.
  assert (Hsrq : (0 <= inject_Z (Timeline.sr self))%Q).
  { change 0%Q with (inject_Z 0). by rewrite <- Zle_Qle. }
  assert (HL : (0 ≤ py_int ((e - st) * inject_Z (Timeline.sr self)))%Z).
  { apply py_int_nonneg. apply Qmult_le_0_compat; [lra | done]. }
  destruct (_ <? 0)%Z eqn:Eneg; [lia |].
  destruct (mix_inside (heap w) self st e (Timeline.notes (after_sort self))
              (replicate (Z.to_nat (py_int ((e - st) * inject_Z (Timeline.sr self)))) 0%Q))
    as (out' & Hmix & Hlen).
  - done.
  - rewrite length_replicate. lia.
  - rewrite after_sort_perm. done.
  - rewrite Hmix in Ho. rewrite length_replicate in Hlen.
    destruct (fst (fst (Timeline.generate_audio self st et w))) as [a | ex] eqn:Er; [| done].
    exists a. split; [done |]. simpl in Ho. inversion Ho as [Hrd].
    destruct (generate_audio_buffer self st et w a Er) as (e' & Hwe' & _ & Ha).
    rewrite Hwe in Hwe'. inversion Hwe'; subst e'.
    assert (Hal : arr_len a = Z.to_nat (py_int ((e - st) * inject_Z (Timeline.sr self))))
      by (by rewrite Ha).
    split; [done |]. by rewrite Hrd, Hal.
Qed.



Lemma generate_audio_default_end self st w :
  tracks_allocated (length (heap w)) (Timeline.tracks self) →
  Timeline.notes self ≠ [] →
  (0 ≤ Timeline.sr self)%Z →
  Forall (plays_trimmed_sample self st) (Timeline.notes self) →
  ∃ a e,
    Timeline.window_end (after_sort self) None = Ok e ∧
    fst (fst (Timeline.generate_audio self st None w)) = Ok a ∧
    arr_len a = Z.to_nat (py_int ((e - st) * inject_Z (Timeline.sr self))) ∧
    length (np_read (heap (snd (Timeline.generate_audio self st None w))) a) = arr_len a.
Proof.
  intros Hall Hne Hsr Hns.
  pose proof (after_sort_perm self) as Hperm.
  destruct (Timeline.window_end (after_sort self) None) as [e | ex] eqn:Ewe.
  2:{ apply window_end_raises in Ewe as (_ & _ & Hnil). rewrite Hnil in Hperm.
      by apply Permutation_nil in Hperm. }
  assert (Hend : ∀ n, n ∈ Timeline.notes self →
                      (Note.start_time n + Note.duration n <= e)%Q).
  { intros n Hn. unfold Timeline.window_end in Ewe.
    apply (py_max_ge _ _ _ Ewe). apply list_elem_of_fmap. exists n.
    split; [done |]. by rewrite Hperm. }
  rewrite Forall_forall in Hns.
  assert (Hste : (st <= e)%Q).
  { destruct (Timeline.notes self) as [| n0 ns] eqn:En; [done |].
    destruct (Hns n0) as (H1 & H2 & _); [by left |].
    specialize (Hend n0 (list_elem_of_here _ _)). lra. }
  destruct (generate_audio_inside self st None e w) as (a & Ha); try done.
  - apply Forall_forall. intros n Hn. right. right.
    destruct (Hns n Hn) as (H1 & H2 & H3 & H4). split_and!; try done. by apply Hend.
  - by exists a, e.
Qed.



(** ** The drum pattern script *)

Section drum_pattern.
Variables kick clap snare hihat : ndarray * Z.

Lemma drum_init :
  Timeline.init (drum_tracks kick clap snare hihat) [] true 44100 120
  = Ok (Timeline.mk
          (<[3%Z := Track.mk 3 (Instrument.mk
                     (Wavetable.init (AudioSample (fst hihat) (snd hihat)) 44100))]>
           (<[2%Z := Track.mk 2 (Instrument.mk
                      (Wavetable.init (AudioSample (fst snare) (snd snare)) 44100))]>
            (<[1%Z := Track.mk 1 (Instrument.mk
                       (Wavetable.init (AudioSample (fst clap) (snd clap)) 44100))]>
             (<[0%Z := Track.mk 0 (Instrument.mk
                        (Wavetable.init (AudioSample (fst kick) (snd kick)) 44100))]>
              ∅))))
          [] true 44100 120).
Proof. reflexivity. Qed.

Lemma drum_notes_inserted : foldl insort [] drum_notes = drum_notes.
Proof. vm_compute. reflexivity. Qed.
End drum_pattern.

Lemma generate_audio_notes self st et w :
  Timeline.notes (snd (fst (Timeline.generate_audio self st et w)))
  = Timeline.notes (after_sort self).
Proof.
  unfold Timeline.generate_audio. fold (after_sort self).
  destruct (Timeline.window_end (after_sort self) et) as [e | ex]; [| done].
  destruct (np_zeros _ _) as [[a | ex] h]; [| done].
  by destruct (Timeline.for_notes _ _ _ _ _ _ _) as [[r trs] w'].
Qed.

(** X14. The script [drum_pattern.py] renders whatever the four samples
    hold: for any four sample buffers (of any length and rate),
    [generate_audio] returns a buffer of [int(3 * 44100) = 132300] samples;
    no note leaves the buffer, since every note is trimmed to its half
    second and the last one ends at the default [end_time].  The Timeline
    holds the eight notes in the order of the script. *)
Theorem drum_pattern_renders kick clap snare hihat w :
  arr_base (fst kick) < length (heap w) →
  arr_base (fst clap) < length (heap w) →
  arr_base (fst snare) < length (heap w) →
  arr_base (fst hihat) < length (heap w) →
  ∃ a timeline,
    fst (drum_pattern kick clap snare hihat w) = Ok (a, timeline) ∧
    Z.of_nat (arr_len a) = 132300%Z ∧
    Z.of_nat (length (np_read (heap (snd (drum_pattern kick clap snare hihat w))) a))
    = 132300%Z ∧
    Timeline.notes timeline = drum_notes.
Proof.
  intros Hk Hc Hs Hh. unfold drum_pattern. rewrite drum_init.
  unfold Timeline.populate_notes. cbn [Timeline.keep_sorted Timeline.notes].
  rewrite drum_notes_inserted. unfold Timeline.set_notes.
  cbn [Timeline.tracks Timeline.keep_sorted Timeline.sr Timeline.bpm].
  set (self := Timeline.mk _ drum_notes true 44100 120).
  destruct (generate_audio_default_end self 0%Q w) as (a & e & Hwe & Hok & Hlen & Hrd).
  - repeat (apply map_Forall_insert_2; [split; [done | apply map_Forall_empty] |]).
    apply map_Forall_empty.
  - discriminate.
  - simpl. lia.
  - unfold self, drum_notes.
    repeat (constructor;
            [split_and!; try (unfold Qle; simpl; lia);
             eexists _, _; split_and!; reflexivity |]).
    constructor.
  - assert (He : e = (12 # 4)%Q).
    { vm_compute in Hwe. by inversion Hwe. }
    subst e.
    assert (HL : py_int (((12 # 4) - 0) * inject_Z (Timeline.sr self)) = 132300%Z)
      by (vm_compute; reflexivity).
    rewrite HL in Hlen.
    pose proof (generate_audio_notes self 0%Q None w) as Hn.
    destruct (Timeline.generate_audio self 0 None w) as [[r timeline] w'].
    simpl in Hok, Hrd, Hn |- *. subst r. exists a, timeline.
    split_and!; [done | lia | lia | done].
Qed.

Lemma drum_pattern_renders_witness :
  let s := (NdArray 0 0 8, 4%Z) in
  ∃ a timeline,
    fst (drum_pattern s s s s ex_world) = Ok (a, timeline) ∧
    Z.of_nat (arr_len a) = 132300%Z ∧
    Z.of_nat (length (np_read (heap (snd (drum_pattern s s s s ex_world))) a))
    = 132300%Z ∧
    Timeline.notes timeline = drum_notes.
Proof.
  apply (drum_pattern_renders (NdArray 0 0 8, 4%Z) (NdArray 0 0 8, 4%Z)
           (NdArray 0 0 8, 4%Z) (NdArray 0 0 8, 4%Z) ex_world); simpl; lia.
Defined.

(** ** Notes that cross an edge of the output buffer *)

Lemma set_heap_same w : set_heap (heap w) w = w.
Proof. by destruct w. Qed.

(** [audio_data[start:start + n] += sound] for a [sound] of [n > 1]
    samples that crosses the end or the start of [audio_data]: the slice
    has fewer than [n] samples, and [+=] raises. *)
Lemma np_iadd_crossing b L sound h start :
  1 < arr_len sound →
  ((0 ≤ start)%Z ∧ (Z.of_nat L < start + Z.of_nat (arr_len sound))%Z) ∨
  ((start < 0)%Z ∧ (0 < start + Z.of_nat (arr_len sound))%Z) →
  ∃ k, k < arr_len sound ∧
       np_iadd (np_slice (NdArray b 0 L) start (start + Z.of_nat (arr_len sound))) sound h
       = (Raise (ValueError_broadcast k (arr_len sound)), h).
Proof.
  intros Hn Hcross. unfold np_iadd, np_slice. cbn [arr_len arr_base arr_off].
  set (lo := slice_index start L).
  set (hi := slice_index (start + Z.of_nat (arr_len sound)) L).
  assert (Hk : hi - lo < arr_len sound).
  { unfold lo, hi, slice_index.
    destruct (start <? 0)%Z eqn:E1, (start + Z.of_nat (arr_len sound) <? 0)%Z eqn:E2; lia. }
  exists (hi - lo). split; [done |].
  rewrite !decide_False by lia. done.
Qed.

(** X15. A note that is rendered to more than one sample and crosses an
    edge of the output buffer stops the loop with [ValueError]: either its
    write would pass the end of the buffer, or it starts before
    [start_time] (negative offset) and reaches into the window.  Nothing of
    it is mixed in, and the notes after it are not rendered. *)
Theorem for_notes_crossing_raises sr st et b L n rest trs w track sound inst w1 :
  Qle_bool (Note.start_time n + Note.duration n) st = false →
  Qle_bool et (Note.start_time n) = false →
  trs !! Note.track_id n = Some track →
  Instrument.play_note (Track.instrument track) n (emit (EvResolve n) w)
  = (Ok sound, inst, w1) →
  1 < arr_len sound →
  ((0 ≤ py_int ((Note.start_time n - st) * inject_Z sr))%Z ∧
   (Z.of_nat L < py_int ((Note.start_time n - st) * inject_Z sr)
                 + Z.of_nat (arr_len sound))%Z) ∨
  ((py_int ((Note.start_time n - st) * inject_Z sr) < 0)%Z ∧
   (0 < py_int ((Note.start_time n - st) * inject_Z sr) + Z.of_nat (arr_len sound))%Z) →
  ∃ k, k < arr_len sound ∧
       Timeline.for_notes sr st et (NdArray b 0 L) (n :: rest) trs w
       = (Raise (ValueError_broadcast k (arr_len sound)),
          <[Note.track_id n := Track.mk (Track.id track) inst]> trs, w1).
Proof.
  intros Hg1 Hg2 Hid Hplay Hn Hcross.
  destruct (np_iadd_crossing b L sound (heap w1) _ Hn Hcross) as (k & Hk & Hadd).
  exists k. split; [done |].
  cbn [Timeline.for_notes]. rewrite Hg1, Hg2, Hid, Hplay. cbv beta iota zeta.
  rewrite Hadd. by rewrite set_heap_same.
Qed.

Lemma for_notes_crossing_raises_witness :
  let n := ex_note (-1 # 4) 1 1 false in
  let w := set_heap [replicate 8 1%Q; replicate 4 0%Q] ex_world in
  let played := Instrument.play_note ex_instrument n (emit (EvResolve n) w) in
  ∃ k, k < 8 ∧
       Timeline.for_notes 4 0 1 (NdArray 1 0 4) [n] (<[0%Z := ex_track 0]> ∅) w
       = (Raise (ValueError_broadcast k 8),
          <[Note.track_id n := Track.mk (Track.id (ex_track 0)) (snd (fst played))]>
            (<[0%Z := ex_track 0]> ∅),
          snd played).
Proof.
  cbv zeta.
  apply (for_notes_crossing_raises 4%Z 0%Q 1%Q 1 4 (ex_note (-1 # 4) 1 1 false) []
           (<[0%Z := ex_track 0]> ∅)
           (set_heap [replicate 8 1%Q; replicate 4 0%Q] ex_world)
           (ex_track 0) (NdArray 2 0 8)).
  - reflexivity.
  - reflexivity.
  - reflexivity.
  - vm_compute. reflexivity.
  - simpl. lia.
  - right. split; vm_compute; reflexivity.
Defined.

(** ** The synthesizer placeholder *)

(** X16. An Instrument on the [AudioSynthesizer] placeholder cannot play:
    its generator returns [None], so as long as its cache holds nothing but
    [None] (as it does from construction on) [play_note] raises [TypeError]
    for every note, allocates nothing, leaves the heap alone, and the cache
    still holds nothing but [None] afterwards. *)
Theorem play_note_synthesizer self n w :
  Wavetable.sound_generator (Instrument.wavetable self) = AudioSynthesizer →
  map_Forall (λ _ v, v = PyNone) (Wavetable.wavetable (Instrument.wavetable self)) →
  fst (fst (Instrument.play_note self n w)) = Raise TypeError_NoneType ∧
  heap (snd (Instrument.play_note self n w)) = heap w ∧
  Wavetable.sound_generator
    (Instrument.wavetable (snd (fst (Instrument.play_note self n w)))) = AudioSynthesizer ∧
  map_Forall (λ _ v, v = PyNone)
    (Wavetable.wavetable (Instrument.wavetable (snd (fst (Instrument.play_note self n w))))).
Proof.
  intros Hgen Hcache. rewrite play_note_eq. cbv zeta.
  assert (Hres : wt_resolve (Instrument.wavetable self) (Note.note n) = PyNone).
  { unfold wt_resolve.
    destruct (Wavetable.wavetable (Instrument.wavetable self) !! Note.note n) as [v |] eqn:E.
    - by apply (Hcache _ _ E).
    - by rewrite Hgen. }
  rewrite Hres. cbn [fst snd Instrument.wavetable].
  pose proof (getitem_fields (Instrument.wavetable self) (Note.note n) (emit (EvPlay n) w))
    as (Hg & _ & Hh).
  split_and!; [done | by rewrite Hh | by rewrite Hg |].
  destruct (Wavetable.wavetable (Instrument.wavetable self) !! Note.note n) as [v |] eqn:E.
  - by rewrite (getitem_hit _ _ _ v).
  - rewrite getitem_miss by done. simpl. apply map_Forall_insert_2; [| done].
    by rewrite Hgen.
Qed.

Lemma play_note_synthesizer_witness :
  let self := Instrument.mk (Wavetable.init AudioSynthesizer 44100) in
  let n := ex_note 0 1 1 true in
  fst (fst (Instrument.play_note self n ex_world)) = Raise TypeError_NoneType ∧
  heap (snd (Instrument.play_note self n ex_world)) = heap ex_world ∧
  Wavetable.sound_generator
    (Instrument.wavetable (snd (fst (Instrument.play_note self n ex_world))))
  = AudioSynthesizer ∧
  map_Forall (λ _ v, v = PyNone)
    (Wavetable.wavetable
       (Instrument.wavetable (snd (fst (Instrument.play_note self n ex_world))))).
Proof.
  apply (play_note_synthesizer (Instrument.mk (Wavetable.init AudioSynthesizer 44100))
           (ex_note 0 1 1 true) ex_world).
  - reflexivity.
  - apply map_Forall_empty.
Defined.

(** ** The samples of a played note *)

(** X17. What [play_note] returns when the pitch resolves to a buffer
    [c].  Untrimmed: every sample of [c] times the velocity.
    Trimmed with [int(duration * sr) >= 0]: the first
    [min(len(c), int(duration * sr))] of those samples, never padded.
    Trimmed with a negative [int(duration * sr) = -k]: those samples
    without the last [k] (the slice counts from the end). *)
Theorem play_note_samples self n w c :
  wt_resolve (Instrument.wavetable self) (Note.note n) = PyArr c →
  let scaled := map (λ x, x * Note.velocity n)%Q (np_read (heap w) c) in
  let stop := py_int (Note.duration n * inject_Z (Wavetable.sr (Instrument.wavetable self))) in
  ∃ a,
    fst (fst (Instrument.play_note self n w)) = Ok a ∧
    arr_len a = length (np_read (heap (snd (Instrument.play_note self n w))) a) ∧
    np_read (heap (snd (Instrument.play_note self n w))) a
    = (if Note.time_wise n
       then if (stop <? 0)%Z
            then take (length scaled - Z.to_nat (- stop)) scaled
            else take (Z.to_nat stop) scaled
       else scaled).
Proof.
  intros Hres. cbv zeta. rewrite play_note_eq. cbv zeta. rewrite Hres. cbn [fst snd].
  set (scaled := map (λ x, x * Note.velocity n)%Q (np_read (heap w) c)).
  set (stop := py_int _).
  destruct (play_note_sound (heap w) scaled n (Wavetable.sr (Instrument.wavetable self)))
    as (_ & Hrd & Hlen).
  cbv zeta in Hrd, Hlen. fold stop in Hrd, Hlen.
  eexists. split; [reflexivity |]. cbn [heap set_heap].
  rewrite Hrd. split; [done |].
  destruct (Note.time_wise n); [| done].
  unfold slice_index. destruct (stop <? 0)%Z eqn:E.
  - f_equal. lia.
  - destruct (decide (stop ≤ Z.of_nat (length scaled))%Z).
    + f_equal. lia.
    + rewrite !take_ge by lia. done.
Qed.

Lemma play_note_samples_witness :
  let n := ex_note 0 (1 # 2) (1 # 2) true in
  let scaled := map (λ x, x * Note.velocity n)%Q (np_read (heap ex_world) (NdArray 0 0 8)) in
  let stop := py_int (Note.duration n * inject_Z (Wavetable.sr (Instrument.wavetable ex_instrument))) in
  ∃ a,
    fst (fst (Instrument.play_note ex_instrument n ex_world)) = Ok a ∧
    arr_len a = length (np_read (heap (snd (Instrument.play_note ex_instrument n ex_world))) a) ∧
    np_read (heap (snd (Instrument.play_note ex_instrument n ex_world))) a
    = (if Note.time_wise n
       then if (stop <? 0)%Z
            then take (length scaled - Z.to_nat (- stop)) scaled
            else take (Z.to_nat stop) scaled
       else scaled).
Proof.
  apply (play_note_samples ex_instrument (ex_note 0 (1 # 2) (1 # 2) true) ex_world
           (NdArray 0 0 8)).
  reflexivity.
Defined.

(** ** Notes before the window *)

Lemma for_notes_filter_early sr st et a ns : ∀ trs w,
  Timeline.for_notes sr st et a ns trs w
  = Timeline.for_notes sr st et a
      (filter (λ n, Qle_bool (Note.start_time n + Note.duration n) st = false) ns) trs w.
Proof.
  induction ns as [| n ns IH]; intros trs w; [done |].
  destruct (Qle_bool (Note.start_time n + Note.duration n) st) eqn:G1.
  - rewrite filter_cons_False by congruence.
    cbn [Timeline.for_notes]. rewrite G1. apply IH.
  - rewrite filter_cons_True by done.
    cbn [Timeline.for_notes]. rewrite G1.
    destruct (Qle_bool et (Note.start_time n)); [done |].
    destruct (trs !! Note.track_id n) as [track |]; [| done].
    destruct (Instrument.play_note _ _ _) as [[[sound | e] inst] w1]; [| done].
    destruct (np_iadd _ _ _) as [[u | e] h]; [| done].
    apply IH.
Qed.

(** X18. Notes that end at or before [start_time] do not take part in a
    render with a given [end_time]: on a Timeline that keeps its notes
    sorted, [generate_audio] has the same outcome and leaves the same tracks,
    heap and call log as on the Timeline without those notes, wherever they
    stand in the list. *)
Theorem generate_audio_skips_early self st e w :
  Timeline.keep_sorted self = true →
  let unfinished n := Qle_bool (Note.start_time n + Note.duration n) st = false in
  let res := Timeline.generate_audio self st (Some e) w in
  let res0 := Timeline.generate_audio
                (Timeline.set_notes (filter unfinished (Timeline.notes self)) self)
                st (Some e) w in
  fst (fst res) = fst (fst res0) ∧
  Timeline.tracks (snd (fst res)) = Timeline.tracks (snd (fst res0)) ∧
  snd res = snd res0.
Proof.
  intros Hk. cbv zeta. unfold Timeline.generate_audio.
  cbn [Timeline.keep_sorted Timeline.set_notes]. rewrite Hk.
  cbn [negb Timeline.window_end Timeline.sr Timeline.notes Timeline.tracks].
  destruct (np_zeros _ (heap w)) as [[a | ex] h]; [| done].
  rewrite (for_notes_filter_early (Timeline.sr self) st e a (Timeline.notes self)).
  by destruct (Timeline.for_notes _ _ _ _ _ _ _) as [[r trs] w'].
Qed.

Lemma generate_audio_skips_early_witness :
  let self := Timeline.mk (<[0%Z := ex_track 0]> ∅)
                [ex_note 0 (1 # 4) 1 true; ex_note 1 (1 # 4) 1 true] true 4 120 in
  let unfinished n := Qle_bool (Note.start_time n + Note.duration n) (1 # 2) = false in
  let res := Timeline.generate_audio self (1 # 2) (Some 2%Q) ex_world in
  let res0 := Timeline.generate_audio
                (Timeline.set_notes (filter unfinished (Timeline.notes self)) self)
                (1 # 2) (Some 2%Q) ex_world in
  fst (fst res) = fst (fst res0) ∧
  Timeline.tracks (snd (fst res)) = Timeline.tracks (snd (fst res0)) ∧
  snd res = snd res0.
Proof.
  apply (generate_audio_skips_early
           (Timeline.mk (<[0%Z := ex_track 0]> ∅)
              [ex_note 0 (1 # 4) 1 true; ex_note 1 (1 # 4) 1 true] true 4 120)
           (1 # 2)%Q 2%Q ex_world).
  reflexivity.
Defined.

(** ** The cache of a Wavetable in any state *)

Lemma lookups_fields ks : ∀ self w,
  Wavetable.sound_generator (snd (fst (lookups self ks w))) = Wavetable.sound_generator self ∧
  Wavetable.sr (snd (fst (lookups self ks w))) = Wavetable.sr self ∧
  dom (Wavetable.wavetable (snd (fst (lookups self ks w))))
  = dom (Wavetable.wavetable self) ∪ list_to_set ks.
Proof.
  induction ks as [| k ks IH]; intros self w; simpl.
  - split_and!; [done | done |]. by rewrite union_empty_r_L.
  - pose proof (getitem_fields self k w) as (Hg & Hsr & _).
    assert (Hdom : dom (Wavetable.wavetable (snd (fst (Wavetable.__getitem__ self k w))))
                   = dom (Wavetable.wavetable self) ∪ {[k]}).
    { destruct (Wavetable.wavetable self !! k) as [v |] eqn:E.
      - rewrite (getitem_hit _ _ _ v) by done. simpl.
        apply set_eq. intros k'. rewrite elem_of_union, elem_of_singleton.
        split; [by left |]. intros [? | ->]; [done |]. apply elem_of_dom. eauto.
      - rewrite getitem_miss by done. simpl. rewrite dom_insert_L.
        apply set_eq. intros k'. rewrite !elem_of_union. tauto. }
    destruct (Wavetable.__getitem__ self k w) as [[v self1] w1]. simpl in Hg, Hsr, Hdom.
    destruct (IH self1 w1) as (Hg' & Hsr' & Hdom').
    destruct (lookups self1 ks w1) as [[vs self2] w2]. simpl in *.
    split_and!; [congruence | congruence |].
    rewrite Hdom', Hdom. apply set_eq. intros k'. rewrite !elem_of_union. tauto.
Qed.

(** X19. A Wavetable in any state never evicts or replaces a cache entry:
    after any sequence of lookups every old entry is still there and is
    what a lookup of its key returns, without a call of the generator; the
    cached keys are the old ones and those looked up; the generator and the
    rate are unchanged. *)
Theorem lookups_grow_cache self ks w :
  let self' := snd (fst (lookups self ks w)) in
  let w' := snd (lookups self ks w) in
  Wavetable.wavetable self ⊆ Wavetable.wavetable self' ∧
  (∀ k v, Wavetable.wavetable self !! k = Some v →
     Wavetable.__getitem__ self' k w' = (v, self', w')) ∧
  dom (Wavetable.wavetable self') = dom (Wavetable.wavetable self) ∪ list_to_set ks ∧
  Wavetable.sound_generator self' = Wavetable.sound_generator self ∧
  Wavetable.sr self' = Wavetable.sr self.
Proof.
  cbv zeta. destruct (lookups_spec ks self w) as (_ & _ & _ & _ & Hsub & _).
  destruct (lookups_fields ks self w) as (Hg & Hsr & Hdom).
  split_and!; try done.
  intros k v Hk. apply getitem_hit. by eapply lookup_weaken.
Qed.

(** ** Mixing *)

Section mixing.
Implicit Types (self : Timeline.t) (ns : list Note.t) (out s : list Q) (i off : nat).


End mixing.



